(** * Shortest alternating paths (src/dsa.cpp)

    A shallow embedding of [Solution::shortestAlternatingPaths] and the
    verification of its breadth-first search over (node, colour) states. *)

From Equations Require Import Equations.
From stdpp Require Import base numbers option list sorting.

Local Open Scope Z_scope.

(** ** Machine integers *)

(** [int] is modelled as [Z]; [int_add] writes out the 32-bit wrap-around. *)
Definition INT_MAX : Z := 2147483647.

Definition wrap_int (z : Z) : Z := (z + 2 ^ 31) `mod` 2 ^ 32 - 2 ^ 31.

Definition int_add (a b : Z) : Z := wrap_int (a + b).

(** ** Vectors indexed by [int]

    [v[i]] on a [std::vector] has no bounds check: an index outside the vector
    is undefined behaviour, which the model reports as [None].  [None] is
    also the outcome of a vector constructor that throws.  So [Some] says
    that the code ran to its end with every access in bounds and nothing
    thrown; [None] says that it did not, and nothing more. *)
Section vector.
Context {A : Type}.

(** [std::vector<T> v(n, x)] with [n] an [int]: a negative [n] converts to a
    size above [max_size()] and the constructor throws
    [std::length_error]. *)
Definition vnew (n : Z) (x : A) : option (list A) :=
  if decide (0 ≤ n) then Some (replicate (Z.to_nat n) x) else None.

Definition vget (v : list A) (i : Z) : option A :=
  if decide (0 ≤ i) then v !! Z.to_nat i else None.

Definition vset (v : list A) (i : Z) (x : A) : option (list A) :=
  if decide (0 ≤ i < Z.of_nat (length v)) then Some (<[Z.to_nat i := x]> v)
  else None.
End vector.

(** ** Adjacency list (lines 12-14)

    Each entry of [adj[u]] is a pair (destination, colour); 0 is red and 1 is
    blue. *)
Definition adjacency : Type := list (list (Z * Z)).

(** [adj[edge[0]].push_back({edge[1], color})] *)
Definition add_edge (color : Z) (adj : adjacency) (edge : list Z)
    : option adjacency :=
  u ← vget edge 0;
  v ← vget edge 1;
  row ← vget adj u;
  vset adj u (row ++ [(v, color)]).

Fixpoint add_edges (color : Z) (edges : list (list Z)) (adj : adjacency)
    : option adjacency :=
  match edges with
  | [] => Some adj
  | edge :: rest => adj' ← add_edge color adj edge; add_edges color rest adj'
  end.

(** ** Search state (lines 16-36) *)
Record state : Type := State {
  dist : list Z;
  visited : list (list bool);
  q : list (Z * Z * Z)
}.

(** [visited[node][color] = true] *)
Definition mark (vis : list (list bool)) (node color : Z)
    : option (list (list bool)) :=
  row ← vget vis node;
  row' ← vset row color true;
  vset vis node row'.

(** The update of [dist[neighbor]] on line 53; [relax_min] is the source's. *)
Definition relax_min (old new : Z) : Z := Z.min old new.

(** The variant that assigns the new distance unconditionally. *)
Definition relax_assign (old new : Z) : Z := new.

Section search.
(** The search is parametrised by the distance update so that the source
    ([relax_min]) and the simplified variant ([relax_assign]) share the
    rest of the loop. *)
Variable relax : Z → Z → Z.

(** Body of the [for] loop over [adj[currentNode]] (lines 42-59). *)
Definition visit (currentDistance prevEdgeColor : Z) (st : state)
    (e : Z * Z) : option state :=
  let '(neighbor, edgeColor) := e in
  if decide (edgeColor ≠ prevEdgeColor) then
    row ← vget (visited st) neighbor;
    seen ← vget row edgeColor;
    if (seen : bool) then Some st
    else
      visited' ← mark (visited st) neighbor edgeColor;
      old ← vget (dist st) neighbor;
      dist' ← vset (dist st) neighbor
                (relax old (int_add currentDistance 1));
      Some (State dist' visited'
              (q st ++ [(neighbor, int_add currentDistance 1, edgeColor)]))
  else Some st.

Fixpoint explore (edges : list (Z * Z)) (currentDistance prevEdgeColor : Z)
    (st : state) : option state :=
  match edges with
  | [] => Some st
  | e :: rest =>
      st' ← visit currentDistance prevEdgeColor st e;
      explore rest currentDistance prevEdgeColor st'
  end.

(** One iteration of the [while] loop: pop the front, explore its edges.
    The caller guarantees the queue is not empty. *)
Definition bfs_iter (adj : adjacency) (front : Z * Z * Z)
    (rest : list (Z * Z * Z)) (st : state) : option state :=
  let '(currentNode, currentDistance, prevEdgeColor) := front in
  edges ← vget adj currentNode;
  explore edges currentDistance prevEdgeColor
    (State (dist st) (visited st) rest).
End search.

(** Number of [false] flags left in the visited matrix. *)
Definition unset (b : bool) : nat := if b then 0%nat else 1%nat.

Definition unvisited (vis : list (list bool)) : nat :=
  sum_list (map (λ row, sum_list (map unset row)) vis).

(** The loop variant: every push consumes one unvisited flag, every
    iteration pops one queue entry. *)
Definition variant (st : state) : nat :=
  (2 * unvisited (visited st) + length (q st))%nat.

(** *** The variant decreases *)

Lemma vget_Some {A} (v : list A) i x :
  vget v i = Some x ↔ 0 ≤ i ∧ v !! Z.to_nat i = Some x.
Proof. unfold vget. case_decide; [tauto|split; [done|lia]]. Qed.

Lemma vset_Some {A} (v : list A) i x v' :
  vset v i x = Some v' ↔
  0 ≤ i < Z.of_nat (length v) ∧ v' = <[Z.to_nat i := x]> v.
Proof.
  unfold vset. case_decide; [|split; [done|tauto]].
  split; [by intros [= <-]|by intros [_ ->]].
Qed.

Lemma sum_list_insert {A} (f : A → nat) (l : list A) i x y :
  l !! i = Some x →
  (sum_list (map f (<[i := y]> l)) + f x = sum_list (map f l) + f y)%nat.
Proof.
  revert i. induction l as [|a l IH]; intros [|i] Hi; simplify_eq/=.
  - lia.
  - specialize (IH _ Hi). lia.
Qed.

Lemma mark_unvisited vis node color row vis' :
  vget vis node = Some row →
  vget row color = Some false →
  mark vis node color = Some vis' →
  S (unvisited vis') = unvisited vis.
Proof.
  unfold mark. intros Hrow Hc Hm. rewrite Hrow in Hm. simpl in Hm.
  destruct (vset row color true) as [row'|] eqn:Hrow'; simplify_eq/=.
  apply vset_Some in Hrow' as [_ ->]. apply vset_Some in Hm as [_ ->].
  apply vget_Some in Hrow as [_ Hrow]. apply vget_Some in Hc as [_ Hc].
  unfold unvisited.
  pose proof (sum_list_insert (λ r, sum_list (map unset r)) vis _ _
                (<[Z.to_nat color := true]> row) Hrow) as H1.
  pose proof (sum_list_insert unset row _ _ true Hc) as H2.
  simpl in *. lia.
Qed.

(** Case analysis that keeps the equation, for the loop's termination. *)
Definition inspect {A : Type} (x : A) : {y : A | x = y} := exist _ x eq_refl.

Section variant.
Variable relax : Z → Z → Z.

(** A visit either leaves the state alone or trades one unvisited flag
    for one queue entry. *)
Lemma visit_cases d p st e st' :
  visit relax d p st e = Some st' →
  st' = st ∨
  (S (unvisited (visited st')) = unvisited (visited st) ∧
   ∃ x, q st' = q st ++ [x]).
Proof.
  unfold visit. destruct e as [v c]. case_decide; [|naive_solver].
  destruct (vget (visited st) v) as [row|] eqn:Hrow; [|done]. simpl.
  destruct (vget row c) as [[]|] eqn:Hc; [naive_solver| |done]. simpl.
  destruct (mark (visited st) v c) as [vis'|] eqn:Hm; [|done]. simpl.
  destruct (vget (dist st) v) as [old|]; [|done]. simpl.
  destruct (vset (dist st) v _) as [dist'|]; [|done]. simpl.
  intros [= <-]. right. simpl. split; [|eauto].
  eapply mark_unvisited; eauto.
Qed.

Lemma visit_variant d p st e st' :
  visit relax d p st e = Some st' → (variant st' ≤ variant st)%nat.
Proof.
  intros [->|[Hu [x Hq]]]%visit_cases; [done|].
  unfold variant. rewrite Hq, length_app. simpl. lia.
Qed.

Lemma explore_variant edges d p st st' :
  explore relax edges d p st = Some st' → (variant st' ≤ variant st)%nat.
Proof.
  revert st. induction edges as [|e edges IH]; intros st; simpl.
  - by intros [= ->].
  - destruct (visit relax d p st e) as [st1|] eqn:Hv; [|done]. simpl.
    intros Hex. apply IH in Hex. apply visit_variant in Hv. lia.
Qed.

Lemma bfs_iter_variant adj front rest st st' :
  q st = front :: rest →
  bfs_iter relax adj front rest st = Some st' →
  (variant st' < variant st)%nat.
Proof.
  intros Hq. unfold bfs_iter. destruct front as [[u d] p].
  destruct (vget adj u) as [edges|]; [|done]. simpl.
  intros Hex%explore_variant. unfold variant in *. rewrite Hq.
  simpl in *. lia.
Qed.

(** The [while (!q.empty())] loop (lines 38-60). *)
Equations? bfs (adj : adjacency) (st : state) : option state
    by wf (variant st) lt :=
  bfs adj st with inspect (q st) := {
    | exist _ [] _ => Some st
    | exist _ (front :: rest) Hq
        with inspect (bfs_iter relax adj front rest st) := {
        | exist _ (Some st') Hit => bfs adj st'
        | exist _ None _ => None } }.
Proof. eapply bfs_iter_variant; eauto. Qed.
End variant.

(** ** Result conversion (lines 62-67) *)
Fixpoint finalize (count : nat) (i : Z) (dist : list Z) : option (list Z) :=
  match count with
  | O => Some dist
  | S count' =>
      x ← vget dist i;
      dist' ← (if decide (x = INT_MAX) then vset dist i (-1) else Some dist);
      finalize count' (i + 1) dist'
  end.

(** ** The function *)

(** The two edge lists are passed by reference: the function runs over the
    caller's objects and hands them back with its result. *)
Record caller : Type := Caller {
  redEdges : list (list Z);
  blueEdges : list (list Z)
}.

Definition call (A : Type) : Type := caller → option (A * caller).

#[global] Instance call_ret : MRet call := λ A x m, Some (x, m).

#[global] Instance call_bind : MBind call := λ A B k c m,
  match c m with Some (x, m') => k x m' | None => None end.

(** A local computation that may throw or run into undefined behaviour. *)
Definition local {A} (o : option A) : call A :=
  λ m, match o with Some x => Some (x, m) | None => None end.

(** Reading the caller's vectors through the references. *)
Definition read_red : call (list (list Z)) := λ m, Some (redEdges m, m).
Definition read_blue : call (list (list Z)) := λ m, Some (blueEdges m, m).

Section solution.
Variable relax : Z → Z → Z.

(** Lines 16-36: distances, visited flags and the two seed states. *)
Definition init (n : Z) : option state :=
  dist0 ← vnew n INT_MAX;
  visited0 ← vnew n (replicate 2 false);
  dist1 ← vset dist0 0 0;
  let q0 := [(0, 0, 0); (0, 0, 1)] in
  visited1 ← mark visited0 0 0;
  visited2 ← mark visited1 0 1;
  Some (State dist1 visited2 q0).

(** Lines 16-69, on the function's own objects. *)
Definition search (n : Z) (adj : adjacency) : option (list Z) :=
  st0 ← init n;
  st ← bfs relax adj st0;
  finalize (Z.to_nat n) 0 (dist st).

(** Lines 12-14. *)
Definition build (n : Z) (red blue : list (list Z)) : option adjacency :=
  adj0 ← vnew n [];
  adj1 ← add_edges 0 red adj0;
  add_edges 1 blue adj1.

Definition shortestAlternatingPaths_with (n : Z) : call (list Z) :=
  adj0 ← local (vnew n []);
  red ← read_red;
  adj1 ← local (add_edges 0 red adj0);
  blue ← read_blue;
  adj ← local (add_edges 1 blue adj1);
  local (search n adj).
End solution.

(** [Solution::shortestAlternatingPaths] as written. *)
Definition shortestAlternatingPaths : Z → call (list Z) :=
  shortestAlternatingPaths_with relax_min.

(** The variant with [dist[neighbor] = currentDistance + 1]. *)
Definition shortestAlternatingPaths_assign : Z → call (list Z) :=
  shortestAlternatingPaths_with relax_assign.

(** The sequence returned for given contents of the two edge lists. *)
Definition returned (f : Z → call (list Z)) (n : Z)
    (red blue : list (list Z)) : option (list Z) :=
  fst <$> f n (Caller red blue).

(** ** Executions of the loop

    [run st popped pushed st'] : starting in [st] the loop runs until the
    queue is empty and stops in [st']; [popped] lists the entries it
    processed and [pushed] the entries it pushed, both in order. *)
Inductive run (relax : Z → Z → Z) (adj : adjacency)
    : state → list (Z * Z * Z) → list (Z * Z * Z) → state → Prop :=
| run_done st :
    q st = [] → run relax adj st [] [] st
| run_iter st front rest st1 new popped pushed st' :
    q st = front :: rest →
    bfs_iter relax adj front rest st = Some st1 →
    q st1 = rest ++ new →
    run relax adj st1 popped pushed st' →
    run relax adj st (front :: popped) (new ++ pushed) st'.

(** The (node, colour) state of a queue entry. *)
Definition key (e : Z * Z * Z) : Z * Z := (e.1.1, e.2).

(** [visited[v][c]] is set. *)
Definition seen (vis : list (list bool)) (v c : Z) : Prop :=
  ∃ row, vget vis v = Some row ∧ vget row c = Some true.

(** ** The problem statement *)

(** Documented precondition: at least one node, endpoints in [0, n-1]. *)
Definition edge_ok (n : Z) (edge : list Z) : Prop :=
  ∃ u v, vget edge 0 = Some u ∧ vget edge 1 = Some v ∧
         0 ≤ u < n ∧ 0 ≤ v < n.

Definition valid_input (n : Z) (red blue : list (list Z)) : Prop :=
  1 ≤ n ∧ Forall (edge_ok n) red ∧ Forall (edge_ok n) blue.

(** Distances are [int]s: a search over [2n] states stays below the
    [INT_MAX] sentinel when [n ≤ 2^30]. *)
Definition fits_int (n : Z) : Prop := 2 * n - 2 < INT_MAX.

(** Some listed endpoint lies outside [0, n-1]. *)
Definition bad_endpoint (n : Z) (red blue : list (list Z)) : Prop :=
  ∃ edge x, edge ∈ red ++ blue ∧ x ∈ edge ∧ ¬ (0 ≤ x < n).

Section graph.
Variables red blue : list (list Z).

Definition edge_in (edges : list (list Z)) (u v : Z) : Prop :=
  ∃ edge, edge ∈ edges ∧ vget edge 0 = Some u ∧ vget edge 1 = Some v.

(** An edge [u → v] of colour [c]. *)
Definition colored (u v c : Z) : Prop :=
  (c = 0 ∧ edge_in red u v) ∨ (c = 1 ∧ edge_in blue u v).





End graph.

(** ** The search space: (node, last colour) states

    [reach E v c k] : state [(v, c)] is [k] edges away from a seed state
    [(0, 0)] or [(0, 1)] along edges [E] whose colour differs from the
    colour of the state they leave. *)
Inductive reach (E : Z → Z → Z → Prop) : Z → Z → Z → Prop :=
| reach_seed c : c = 0 ∨ c = 1 → reach E 0 c 0
| reach_step u p v c k :
    reach E u p k → E u v c → c ≠ p → reach E v c (k + 1).

Definition minlevel (E : Z → Z → Z → Prop) (v c d : Z) : Prop :=
  reach E v c d ∧ ∀ k, reach E v c k → d ≤ k.

(** The source's update or the variant's, by a flag. *)
Definition pick (use_min : bool) : Z → Z → Z :=
  if use_min then relax_min else relax_assign.

(** ** Invariants of the search *)

(** The final pass on one entry. *)
Definition clean (x : Z) : Z := if decide (x = INT_MAX) then -1 else x.

(** The shape that keeps every access in bounds. *)
Definition Safe (n : Z) (st : state) : Prop :=
  length (dist st) = Z.to_nat n ∧
  length (visited st) = Z.to_nat n ∧
  (∀ row, row ∈ visited st → length row = 2%nat) ∧
  (∀ e, e ∈ q st → 0 ≤ e.1.1 < n).

(** The entries in [new] are states that were not seen in [st] and are
    seen in [st'], each once; no flag is cleared. *)
Definition fresh (st : state) (new : list (Z * Z * Z)) (st' : state) : Prop :=
  NoDup (map key new) ∧
  (∀ e, e ∈ new →
        ¬ seen (visited st) e.1.1 e.2 ∧ seen (visited st') e.1.1 e.2) ∧
  (∀ v c, seen (visited st) v c → seen (visited st') v c) ∧
  (unvisited (visited st') + length new = unvisited (visited st))%nat.


Section invariants.
Variable n : Z.
Variable E : Z → Z → Z → Prop.
Variable use_min : bool.

(** Every edge leaving [(u, p)] leads to a state already seen. *)
Definition closed (vis : list (list bool)) (u p : Z) : Prop :=
  ∀ v c, E u v c → c ≠ p → seen vis v c.

(** Every state at most [D] edges away has been seen. *)
Definition low (vis : list (list bool)) (D : Z) : Prop :=
  ∀ v c k, reach E v c k → k ≤ D → seen vis v c.

(** The queue holds distance [D] first and then distance [D + 1]. *)
Definition levels (D : Z) (l : list (Z * Z * Z)) : Prop :=
  ∃ qa qb, l = qa ++ qb ∧
           (∀ e, e ∈ qa → e.1.2 = D) ∧ (∀ e, e ∈ qb → e.1.2 = D + 1).

(** [(v, c)] is waiting in the queue at its level, or fully explored. *)
Definition settled (st : state) (v c : Z) : Prop :=
  ∃ d, minlevel E v c d ∧ ((v, d, c) ∈ q st ∨ closed (visited st) v c).

(** What holds at every point of the search. *)
Record common (st : state) : Prop := Common {
  c_dist : length (dist st) = Z.to_nat n;
  c_vis : length (visited st) = Z.to_nat n;
  c_rows : ∀ row, row ∈ visited st → length row = 2%nat;
  c_queue : ∀ u d p, (u, d, p) ∈ q st →
      seen (visited st) u p ∧ minlevel E u p d ∧
      d + Z.of_nat (unvisited (visited st)) ≤ 2 * n - 2;
  c_seed : seen (visited st) 0 0 ∧ seen (visited st) 0 1;
  c_some : ∀ v x, vget (dist st) v = Some x →
      (x = INT_MAX ∧ ∀ c, ¬ seen (visited st) v c) ∨
      (x < INT_MAX ∧ ∃ c, seen (visited st) v c ∧ minlevel E v c x);
  c_least : use_min = true → ∀ v x c k,
      vget (dist st) v = Some x → seen (visited st) v c → reach E v c k →
      x ≤ k
}.

(** At the head of the [while] loop. *)
Definition Inv (st : state) : Prop :=
  common st ∧
  (∀ v c, seen (visited st) v c → settled st v c) ∧
  match q st with
  | [] => True
  | (_, D, _) :: rest => low (visited st) D ∧ levels D rest
  end.

(** Inside the [for] loop over the edges of [(u, D, p)], after the edges
    [seen_edges]. *)
Definition Jnv (u D p : Z) (seen_edges : list (Z * Z)) (st : state) : Prop :=
  common st ∧
  D + Z.of_nat (unvisited (visited st)) ≤ 2 * n - 2 ∧
  low (visited st) D ∧
  levels D (q st) ∧
  (∀ v c, seen (visited st) v c → (v = u ∧ c = p) ∨ settled st v c) ∧
  (∀ v c, (v, c) ∈ seen_edges → c ≠ p → seen (visited st) v c).
End invariants.

Arguments c_dist {n E use_min st} _.
Arguments c_vis {n E use_min st} _.
Arguments c_rows {n E use_min st} _ _ _.
Arguments c_queue {n E use_min st} _ _ _ _ _.
Arguments c_seed {n E use_min st} _.
Arguments c_some {n E use_min st} _ _ _ _.
Arguments c_least {n E use_min st} _ _ _ _ _ _ _ _ _.

(** ** The rows of the adjacency list *)

(** The entries that the loop over [edges] appends to [adj[u]], in order:
    one [(edge[1], color)] for every edge with [edge[0] = u]. *)
Definition out_edges (color u : Z) (edges : list (list Z)) : list (Z * Z) :=
  omap (λ edge, a ← vget edge 0; b ← vget edge 1;
                if decide (a = u) then Some (b, color) else None) edges.

(** What the loops on lines 13-14 need of an edge: two entries, the first
    a row of [adj]. *)
Definition source_ok (n : Z) (edge : list Z) : Prop :=
  ∃ u v, vget edge 0 = Some u ∧ vget edge 1 = Some v ∧ 0 ≤ u < n.

(** The source's entry is never written: both its flags are set before the
    loop starts. *)
Definition source_kept (n : Z) (d : list Z) (vis : list (list bool)) : Prop :=
  length d = Z.to_nat n ∧ vget d 0 = Some 0 ∧
  seen vis 0 0 ∧ seen vis 0 1 ∧
  ∀ row, vget vis 0 = Some row → length row = 2%nat.

(** * Verification *)

(** ** Vectors and flags *)

Lemma vnew_nonneg {A} n (x : A) :
  0 ≤ n → vnew n x = Some (replicate (Z.to_nat n) x).
Proof. intros Hn. unfold vnew. by rewrite decide_True. Qed.

Lemma vnew_negative {A} n (x : A) : n < 0 → vnew n x = None.
Proof. intros Hn. unfold vnew. rewrite decide_False; [done|lia]. Qed.

Lemma vget_in_range {A} (v : list A) i :
  0 ≤ i < Z.of_nat (length v) → ∃ x, vget v i = Some x.
Proof.
  intros Hi. destruct (lookup_lt_is_Some_2 v (Z.to_nat i)) as [x Hx]; [lia|].
  exists x. apply vget_Some. split; [lia|done].
Qed.

Lemma vget_range {A} (v : list A) i x :
  vget v i = Some x → 0 ≤ i < Z.of_nat (length v).
Proof. intros [? H%lookup_lt_Some]%vget_Some. lia. Qed.

Lemma vget_vset {A} (v v' : list A) i j x :
  vset v i x = Some v' → 0 ≤ j →
  vget v' j = if decide (j = i) then Some x else vget v j.
Proof.
  intros [Hi ->]%vset_Some Hj. unfold vget.
  rewrite decide_True by done. case_decide as Hij.
  - subst. apply list_lookup_insert_eq. lia.
  - rewrite decide_True by done. apply list_lookup_insert_ne. lia.
Qed.

Lemma vset_length {A} (v v' : list A) i x :
  vset v i x = Some v' → length v' = length v.
Proof. intros [_ ->]%vset_Some. apply length_insert. Qed.

Lemma vset_in_range {A} (v : list A) i x :
  0 ≤ i < Z.of_nat (length v) → ∃ v', vset v i x = Some v'.
Proof. intros Hi. unfold vset. rewrite decide_True by done. eauto. Qed.

Lemma vget_elem {A} (v : list A) i x : vget v i = Some x → x ∈ v.
Proof. intros [_ H]%vget_Some. by eapply list_elem_of_lookup_2. Qed.

Lemma mark_inv vis v c vis' :
  mark vis v c = Some vis' →
  ∃ row row', vget vis v = Some row ∧ vset row c true = Some row' ∧
              vset vis v row' = Some vis'.
Proof.
  unfold mark. destruct (vget vis v) as [row|]; [|done]. simpl.
  destruct (vset row c true) as [row'|] eqn:Hrow'; [|done]. simpl.
  intros Hv. exists row, row'. done.
Qed.

Lemma mark_in_range vis v c row :
  vget vis v = Some row → 0 ≤ c < Z.of_nat (length row) →
  ∃ vis', mark vis v c = Some vis'.
Proof.
  intros Hrow Hc. unfold mark. rewrite Hrow. simpl.
  destruct (vset_in_range row c true Hc) as [row' ->]. simpl.
  apply vset_in_range. by eapply vget_range.
Qed.

Lemma mark_length vis v c vis' :
  mark vis v c = Some vis' → length vis' = length vis.
Proof. intros (row & row' & _ & _ & H)%mark_inv. by eapply vset_length. Qed.

Lemma mark_rows vis v c vis' (k : nat) :
  mark vis v c = Some vis' →
  (∀ row, row ∈ vis → length row = k) →
  ∀ row, row ∈ vis' → length row = k.
Proof.
  intros (r & r' & Hr & Hr' & Hv)%mark_inv Hall row Hin.
  apply vset_Some in Hv as [_ ->].
  apply list_elem_of_lookup in Hin as [i Hi].
  destruct (decide (i = Z.to_nat v)) as [->|Hne].
  - rewrite list_lookup_insert_eq in Hi
      by (apply vget_range in Hr; lia).
    injection Hi as <-. erewrite vset_length by done.
    apply Hall. by eapply vget_elem.
  - rewrite list_lookup_insert_ne in Hi by done.
    apply Hall. by eapply list_elem_of_lookup_2.
Qed.

(** Marking sets exactly one flag. *)
Lemma seen_mark vis v c vis' v' c' :
  mark vis v c = Some vis' →
  seen vis' v' c' ↔ seen vis v' c' ∨ (v' = v ∧ c' = c).
Proof.
  intros (r & r' & Hr & Hr' & Hv)%mark_inv. unfold seen. split.
  - intros (row & Hrow & Hc).
    pose proof (vget_range _ _ _ Hrow) as Hv'.
    rewrite (vget_vset _ _ _ _ _ Hv) in Hrow by lia.
    case_decide; [|by eauto]. simplify_eq.
    pose proof (vget_range _ _ _ Hc) as Hc'.
    rewrite (vget_vset _ _ _ _ _ Hr') in Hc by lia.
    case_decide; [by right|eauto].
  - intros [(row & Hrow & Hc)|[-> ->]].
    + pose proof (vget_range _ _ _ Hrow) as Hv'.
      rewrite (vget_vset _ _ _ _ _ Hv) by lia.
      case_decide; [|by eauto]. simplify_eq.
      exists r'. split; [done|].
      pose proof (vget_range _ _ _ Hc) as Hc'.
      rewrite (vget_vset _ _ _ _ _ Hr') by lia.
      by case_decide.
    + exists r'. pose proof (vget_range _ _ _ Hr).
      rewrite (vget_vset _ _ _ _ _ Hv), decide_True by (done || lia).
      split; [done|]. apply vset_Some in Hr' as [? ->].
      apply vget_Some. split; [lia|]. apply list_lookup_insert_eq. lia.
Qed.

Lemma seen_false vis v c row :
  vget vis v = Some row → vget row c = Some false → ¬ seen vis v c.
Proof. intros Hrow Hc (row' & ? & ?). simplify_eq. Qed.

Lemma seen_true vis v c row :
  vget vis v = Some row → vget row c = Some true → seen vis v c.
Proof. intros. exists row. done. Qed.

(** ** Rules for the two loops *)

Section rules.
Variable relax : Z → Z → Z.
Variable adj : adjacency.

Lemma bfs_step_eq st :
  bfs relax adj st =
  match q st with
  | [] => Some st
  | front :: rest =>
      match bfs_iter relax adj front rest st with
      | Some st' => bfs relax adj st'
      | None => None
      end
  end.
Proof.
  funelim (bfs relax adj st); clear Heqcall.
  - by rewrite e.
  - by rewrite Hq, Hit.
  - by rewrite Hq, e.
Qed.

(** The [for] loop, with an invariant indexed by the edges already
    examined. *)
Lemma explore_rule (J : list (Z * Z) → state → Prop) d p edges st0 :
  J [] st0 →
  (∀ seen_edges e st,
     (∃ todo, edges = seen_edges ++ e :: todo) → J seen_edges st →
     ∃ st', visit relax d p st e = Some st' ∧ J (seen_edges ++ [e]) st') →
  ∃ st', explore relax edges d p st0 = Some st' ∧ J edges st'.
Proof.
  intros H0 Hstep.
  cut (∀ todo seen_edges st,
         edges = seen_edges ++ todo → J seen_edges st →
         ∃ st', explore relax todo d p st = Some st' ∧ J edges st').
  { intros Hgen. by apply (Hgen edges [] st0). }
  induction todo as [|e todo IH]; intros seen_edges st Hed HJ; simpl.
  - rewrite app_nil_r in Hed. subst. eauto.
  - destruct (Hstep seen_edges e st) as (st1 & -> & HJ1); [eauto|done|].
    simpl. apply (IH (seen_edges ++ [e])); [|done].
    by rewrite <- app_assoc.
Qed.

(** The queue only grows at its back while edges are explored. *)
Lemma explore_queue edges d p st st' :
  explore relax edges d p st = Some st' → ∃ new, q st' = q st ++ new.
Proof.
  revert st. induction edges as [|e edges IH]; intros st; simpl.
  - intros [= ->]. exists []. by rewrite app_nil_r.
  - destruct (visit relax d p st e) as [st1|] eqn:Hv; [|done]. simpl.
    intros [new Hnew]%IH. apply visit_cases in Hv as [->|[_ [x Hx]]].
    + eauto.
    + exists (x :: new). rewrite Hnew, Hx, <- app_assoc. done.
Qed.

Lemma bfs_iter_queue front rest st st' :
  bfs_iter relax adj front rest st = Some st' → ∃ new, q st' = rest ++ new.
Proof.
  unfold bfs_iter. destruct front as [[u d] p].
  destruct (vget adj u) as [edges|]; [|done]. simpl.
  intros H%explore_queue. done.
Qed.

(** The [while] loop: an invariant kept by every iteration holds when the
    loop stops, and the loop does stop. *)
Lemma run_rule (P : state → Prop) :
  (∀ st front rest,
     P st → q st = front :: rest →
     ∃ st', bfs_iter relax adj front rest st = Some st' ∧ P st') →
  ∀ st, P st →
  ∃ popped pushed st', run relax adj st popped pushed st' ∧ P st'.
Proof.
  intros Hstep st. remember (variant st) as m eqn:Hm. revert st Hm.
  induction m as [m IH] using lt_wf_ind. intros st -> HP.
  destruct (q st) as [|front rest] eqn:Hq.
  - exists [], [], st. split; [by constructor|done].
  - destruct (Hstep st front rest HP Hq) as (st1 & Hit & HP1).
    destruct (bfs_iter_queue _ _ _ _ Hit) as [new Hnew].
    destruct (IH (variant st1)) with (st := st1)
      as (popped & pushed & st' & Hrun & HP'); [|done|done|].
    { by eapply bfs_iter_variant. }
    exists (front :: popped), (new ++ pushed), st'.
    split; [by econstructor|done].
Qed.

Lemma run_bfs st popped pushed st' :
  run relax adj st popped pushed st' → bfs relax adj st = Some st'.
Proof.
  induction 1 as [st Hq|st front rest st1 new popped pushed st' Hq Hit _ _ IH];
    rewrite bfs_step_eq, Hq; [done|]. by rewrite Hit.
Qed.

Lemma run_final st popped pushed st' :
  run relax adj st popped pushed st' → q st' = [].
Proof. induction 1; done. Qed.

(** First in, first out: the entries processed are the initial queue
    followed by everything pushed. *)
Lemma run_fifo st popped pushed st' :
  run relax adj st popped pushed st' → popped = q st ++ pushed.
Proof.
  induction 1 as [st Hq|st front rest st1 new popped pushed st' Hq _ Hnew _ IH].
  - by rewrite Hq.
  - rewrite Hq, IH, Hnew, <- app_assoc. done.
Qed.
End rules.

(** ** What one visit does *)

Section visit.
Variable relax : Z → Z → Z.

(** Without any assumption on the state: a visit that returns either
    changes nothing or sets one flag that was clear and pushes that state. *)
Lemma visit_fresh d p st e st' :
  visit relax d p st e = Some st' →
  st' = st ∨
  ∃ d', q st' = q st ++ [(e.1, d', e.2)] ∧
        ¬ seen (visited st) e.1 e.2 ∧
        mark (visited st) e.1 e.2 = Some (visited st') ∧
        S (unvisited (visited st')) = unvisited (visited st).
Proof.
  unfold visit. destruct e as [v c]. case_decide; [|naive_solver].
  destruct (vget (visited st) v) as [row|] eqn:Hrow; [|done]. simpl.
  destruct (vget row c) as [[]|] eqn:Hc; [naive_solver| |done]. simpl.
  destruct (mark (visited st) v c) as [vis'|] eqn:Hm; [|done]. simpl.
  destruct (vget (dist st) v) as [old|]; [|done]. simpl.
  destruct (vset (dist st) v _) as [dist'|]; [|done]. simpl.
  intros [= <-]. right. simpl. eexists. split; [done|].
  split; [by eapply seen_false|]. split; [done|].
  by eapply mark_unvisited.
Qed.

(** On a state of the right shape a visit always returns. *)
Lemma visit_spec (n : Z) d p st v c :
  length (dist st) = Z.to_nat n →
  length (visited st) = Z.to_nat n →
  (∀ row, row ∈ visited st → length row = 2%nat) →
  0 ≤ v < n → c = 0 ∨ c = 1 →
  (visit relax d p st (v, c) = Some st ∧ (c = p ∨ seen (visited st) v c)) ∨
  (c ≠ p ∧ ¬ seen (visited st) v c ∧
   ∃ vis' old dist',
     mark (visited st) v c = Some vis' ∧
     vget (dist st) v = Some old ∧
     vset (dist st) v (relax old (int_add d 1)) = Some dist' ∧
     visit relax d p st (v, c) =
       Some (State dist' vis' (q st ++ [(v, int_add d 1, c)]))).
Proof.
  intros Hd Hvis Hrows Hv Hc. unfold visit.
  case_decide as Hcp; [|left; split; [done|left]].
  2:{ destruct (decide (c = p)); [done|]. by destruct Hcp. }
  destruct (vget_in_range (visited st) v) as [row Hrow]; [lia|].
  rewrite Hrow. simpl.
  assert (length row = 2%nat) as Hlen by (eapply Hrows, vget_elem; done).
  destruct (vget_in_range row c) as [b Hb]; [lia|]. rewrite Hb. simpl.
  destruct b.
  { left. split; [done|]. right. by eapply seen_true. }
  right. split; [done|]. split; [by eapply seen_false|].
  destruct (mark_in_range (visited st) v c row) as [vis' Hm]; [done|lia|].
  destruct (vget_in_range (dist st) v) as [old Hold]; [lia|].
  destruct (vset_in_range (dist st) v (relax old (int_add d 1)))
    as [dist' Hdist']; [lia|].
  exists vis', old, dist'. rewrite Hm, Hold. simpl. rewrite Hdist'. done.
Qed.
End visit.

(** ** States reachable in the search space *)

Section reach.
Variable n : Z.
Variable E : Z → Z → Z → Prop.
Hypothesis Hn : 1 ≤ n.
Hypothesis HE :
  ∀ u v c, E u v c → 0 ≤ u < n ∧ 0 ≤ v < n ∧ (c = 0 ∨ c = 1).

Lemma reach_range v c k :
  reach E v c k → 0 ≤ v < n ∧ (c = 0 ∨ c = 1) ∧ 0 ≤ k.
Proof.
  induction 1 as [c Hc|u p v c k _ IH Huv _]; [split; [lia|done]|].
  apply HE in Huv. split; [tauto|]. split; [tauto|lia].
Qed.

Lemma reach_zero v c : reach E v c 0 → v = 0.
Proof.
  inversion 1 as [|u p v' c' k Hr _ _ Hk]; [done|].
  apply reach_range in Hr. lia.
Qed.

Lemma reach_pred v c k :
  reach E v c k → 0 < k →
  ∃ u p, reach E u p (k - 1) ∧ E u v c ∧ c ≠ p.
Proof.
  inversion 1 as [|u p v' c' k' Hr Huv Hcp Hk]; [lia|]. intros _.
  exists u, p. replace (k' + 1 - 1) with k' by lia. done.
Qed.

Lemma minlevel_seed c : c = 0 ∨ c = 1 → minlevel E 0 c 0.
Proof.
  intros Hc. split; [by constructor|].
  intros k Hk%reach_range. lia.
Qed.
End reach.

(** ** Machine arithmetic in range *)

Lemma int_add_small d : 0 ≤ d → d + 1 < INT_MAX → int_add d 1 = d + 1.
Proof.
  unfold int_add, wrap_int, INT_MAX. intros H0 H1.
  rewrite Z.mod_small; lia.
Qed.

Lemma pick_cases use_min old new :
  pick use_min old new = new ∨
  (use_min = true ∧ pick use_min old new = old ∧ old < new).
Proof.
  destruct use_min; simpl; [|by left].
  unfold relax_min. destruct (Z.min_spec old new) as [[? ->]|[? ->]];
    [right|left]; done.
Qed.

Lemma pick_min old new : pick true old new = Z.min old new.
Proof. done. Qed.

(** ** The initial state *)

Lemma unvisited_replicate (k : nat) :
  unvisited (replicate k (replicate 2 false)) = (2 * k)%nat.
Proof.
  unfold unvisited. induction k as [|k IH]; simpl in *; [done|].
  rewrite IH. lia.
Qed.

Lemma seen_replicate (k : nat) v c :
  ¬ seen (replicate k (replicate 2 false)) v c.
Proof.
  intros (row & [_ Hrow]%vget_Some & [_ Hc]%vget_Some).
  apply lookup_replicate in Hrow as [-> _].
  apply lookup_replicate in Hc as [? _]. done.
Qed.

Lemma init_spec n :
  1 ≤ n →
  ∃ dist1 vis2,
    init n = Some (State dist1 vis2 [(0, 0, 0); (0, 0, 1)]) ∧
    length dist1 = Z.to_nat n ∧
    length vis2 = Z.to_nat n ∧
    (∀ row, row ∈ vis2 → length row = 2%nat) ∧
    (∀ v c, seen vis2 v c ↔ v = 0 ∧ (c = 0 ∨ c = 1)) ∧
    Z.of_nat (unvisited vis2) = 2 * n - 2 ∧
    (∀ v x, vget dist1 v = Some x →
            x = if decide (v = 0) then 0 else INT_MAX).
Proof.
  intros Hn. unfold init. rewrite !vnew_nonneg by lia. simpl.
  set (dist0 := replicate (Z.to_nat n) INT_MAX).
  set (vis0 := replicate (Z.to_nat n) (replicate 2 false)).
  destruct (vset_in_range dist0 0 0) as [dist1 Hdist1].
  { unfold dist0. rewrite length_replicate. lia. }
  assert (vget vis0 0 = Some [false; false]) as Hrow0.
  { apply vget_Some. split; [done|]. apply lookup_replicate. split; [done|lia]. }
  destruct (mark_in_range vis0 0 0 _ Hrow0) as [vis1 Hvis1]; [simpl; lia|].
  assert (vget vis1 0 = Some [true; false]) as Hrow1.
  { destruct (mark_inv _ _ _ _ Hvis1) as (r & r' & Hr & Hr' & Hv).
    rewrite (vget_vset _ _ _ _ _ Hv), decide_True by done.
    rewrite Hrow0 in Hr. injection Hr as <-.
    apply vset_Some in Hr' as [_ ->]. done. }
  destruct (mark_in_range vis1 0 1 _ Hrow1) as [vis2 Hvis2]; [simpl; lia|].
  exists dist1, vis2. rewrite Hdist1. simpl.
  change (replicate (Z.to_nat n) [false; false]) with vis0.
  rewrite Hvis1. simpl.
  rewrite Hvis2. simpl. split; [done|].
  assert (∀ row, row ∈ vis0 → length row = 2%nat) as Hrows0.
  { intros row [-> _]%elem_of_replicate. done. }
  split; [|split; [|split; [|split; [|split]]]].
  - erewrite vset_length by done. apply length_replicate.
  - erewrite !mark_length by done. apply length_replicate.
  - eapply mark_rows; [done|]. by eapply mark_rows.
  - intros v c. rewrite (seen_mark _ _ _ _ v c Hvis2).
    rewrite (seen_mark _ _ _ _ v c Hvis1). split.
    + intros [[H%seen_replicate|[-> ->]]|[-> ->]]; [done|split; auto..].
    + intros [-> [-> | ->]]; [left; by right|by right].
  - pose proof (mark_unvisited vis0 0 0 _ _ Hrow0 eq_refl Hvis1) as H1.
    pose proof (mark_unvisited vis1 0 1 _ _ Hrow1 eq_refl Hvis2) as H2.
    unfold vis0 in H1. rewrite unvisited_replicate in H1. lia.
  - intros v x Hx. pose proof (vget_range _ _ _ Hx) as Hv.
    rewrite (vget_vset _ _ _ _ _ Hdist1) in Hx by lia.
    case_decide; [by injection Hx|].
    apply vget_Some in Hx as [_ Hx]. by apply lookup_replicate in Hx as [-> _].
Qed.

(** ** The final pass *)

Lemma finalize_spec count i dist :
  length dist = (i + count)%nat →
  finalize count (Z.of_nat i) dist =
    Some (take i dist ++ map clean (drop i dist)).
Proof.
  revert i dist. induction count as [|count IH]; intros i dist Hlen; simpl.
  - rewrite drop_ge, take_ge, app_nil_r by lia. done.
  - destruct (lookup_lt_is_Some_2 dist i) as [x Hx]; [lia|].
    assert (vget dist (Z.of_nat i) = Some x) as ->.
    { apply vget_Some. split; [lia|]. by rewrite Nat2Z.id. }
    simpl.
    assert ((if decide (x = INT_MAX) then vset dist (Z.of_nat i) (-1)
             else Some dist) = Some (<[i := clean x]> dist)) as ->.
    { unfold clean. case_decide.
      - unfold vset. rewrite decide_True by lia. by rewrite Nat2Z.id.
      - by rewrite list_insert_id. }
    simpl. replace (Z.of_nat i + 1) with (Z.of_nat (S i)) by lia.
    rewrite IH by (rewrite length_insert; lia).
    f_equal. rewrite (drop_S dist x i Hx). simpl.
    rewrite (take_S_r (<[i:=clean x]> dist) i (clean x))
      by (apply list_lookup_insert_eq; lia).
    rewrite take_insert_ge by lia. rewrite drop_insert_lt by lia.
    by rewrite <- app_assoc.
Qed.

Lemma finalize_all n dist :
  length dist = Z.to_nat n →
  finalize (Z.to_nat n) 0 dist = Some (map clean dist).
Proof. intros Hlen. by rewrite (finalize_spec _ 0 dist). Qed.

(** ** The search invariant *)

Section invariant.
Variable n : Z.
Variable E : Z → Z → Z → Prop.
Variable adj : adjacency.
Variable use_min : bool.
Hypothesis Hn : 1 ≤ n.
Hypothesis Hfit : fits_int n.
Hypothesis HE :
  ∀ u v c, E u v c → 0 ≤ u < n ∧ 0 ≤ v < n ∧ (c = 0 ∨ c = 1).
Hypothesis Hadj_len : length adj = Z.to_nat n.
Hypothesis Hadj :
  ∀ u row, vget adj u = Some row → ∀ v c, (v, c) ∈ row ↔ E u v c.

Lemma levels_snoc D l u c : levels D l → levels D (l ++ [(u, D + 1, c)]).
Proof.
  intros (qa & qb & -> & Ha & Hb). exists qa, (qb ++ [(u, D + 1, c)]).
  split; [by rewrite app_assoc|]. split; [done|].
  intros e [He|He%list_elem_of_singleton]%elem_of_app; [by apply Hb|by subst].
Qed.

Lemma Jnv_visit u D p seen_edges st v c :
  minlevel E u p D → E u v c → Jnv n E use_min u D p seen_edges st →
  ∃ st', visit (pick use_min) D p st (v, c) = Some st' ∧
         Jnv n E use_min u D p (seen_edges ++ [(v, c)]) st'.
Proof.
  intros [Hup Hmin] Huv (Hc & Hbound & Hlow & Hlev & Hset & Hdone).
  destruct (HE _ _ _ Huv) as (_ & Hv & Hcol).
  destruct (reach_range n E Hn HE _ _ _ Hup) as (_ & _ & HD).
  destruct (visit_spec (pick use_min) n D p st v c)
    as [[-> Hold]|(Hcp & Hnew & vis' & old & dist' & Hm & Hget & Hput & ->)];
    [apply Hc..|done|done| |].
  { (* nothing changes *)
    eexists. split; [done|]. do 5 (split; [done|]).
    intros v' c' [?|[= -> ->]%list_elem_of_singleton]%elem_of_app ?;
      [by apply Hdone|]. by destruct Hold. }
  (* a new state *)
  assert (S (unvisited vis') = unvisited (visited st)) as Hcount.
  { destruct (mark_inv _ _ _ _ Hm) as (row & row' & Hrow & Hrow' & _).
    eapply mark_unvisited; [done| |done].
    destruct (vget_in_range row c) as [[] Hb].
    - apply vset_Some in Hrow' as [? _]. done.
    - destruct Hnew. by eapply seen_true.
    - done. }
  rewrite int_add_small in * by (unfold fits_int in Hfit; lia).
  assert (∀ v' c', seen (visited st) v' c' → seen vis' v' c') as Hmono.
  { intros v' c' ?. apply (seen_mark _ _ _ _ v' c' Hm). by left. }
  assert (seen vis' v c) as Hvc.
  { apply (seen_mark _ _ _ _ v c Hm). by right. }
  assert (minlevel E v c (D + 1)) as Hlevel.
  { split; [by econstructor|]. intros k Hk.
    destruct (decide (k ≤ D)); [|lia]. destruct Hnew. by eapply Hlow. }
  eexists. split; [done|]. split; [split|]; simpl.
  - erewrite vset_length by done. apply Hc.
  - erewrite mark_length by done. apply Hc.
  - eapply mark_rows; [done|]. apply Hc.
  - intros u' d' p' [Hin|[= -> -> ->]%list_elem_of_singleton]%elem_of_app.
    + destruct (c_queue Hc _ _ _ Hin) as (? & ? & ?).
      split; [by apply Hmono|]. split; [done|lia].
    + split; [done|]. split; [done|lia].
  - destruct (c_seed Hc). split; by apply Hmono.
  - intros v' x Hx. pose proof (vget_range _ _ _ Hx) as Hv'.
    rewrite (vget_vset _ _ _ _ _ Hput) in Hx by lia.
    case_decide as Hvv; simplify_eq.
    + destruct (pick_cases use_min old (D + 1)) as [->|(_ & -> & Hlt)].
      * right. split; [unfold fits_int in Hfit; lia|]. by exists c.
      * destruct (c_some Hc _ _ Hget) as [[-> _]|[? (c0 & ? & ?)]].
        { unfold fits_int in Hfit. lia. }
        right. split; [done|]. exists c0. split; [by apply Hmono|done].
    + destruct (c_some Hc _ _ Hx) as [[-> Hno]|[? (c0 & ? & ?)]].
      * left. split; [done|]. intros c0 Hc0.
        apply (seen_mark _ _ _ _ v' c0 Hm) in Hc0 as [?|[? _]]; [|done].
        by eapply Hno.
      * right. split; [done|]. exists c0. split; [by apply Hmono|done].
  - intros Hflag v' x c' k Hx Hs Hk. rewrite Hflag in Hput.
    pose proof (vget_range _ _ _ Hx) as Hv'.
    rewrite (vget_vset _ _ _ _ _ Hput) in Hx by lia.
    apply (seen_mark _ _ _ _ v' c' Hm) in Hs.
    case_decide as Hvv.
    + subst v'. injection Hx as <-.
      rewrite pick_min. destruct Hs as [Hs|[_ ->]].
      * pose proof (c_least Hc Hflag _ _ _ _ Hget Hs Hk). lia.
      * destruct Hlevel as [_ Hl]. apply Hl in Hk. lia.
    + destruct Hs as [Hs|[? _]]; [|done].
      by eapply (c_least Hc Hflag).
  - split; [lia|]. split.
    { intros v' c' k ? ?. apply Hmono. by eapply Hlow. }
    split; [by apply levels_snoc|]. split.
    + intros v' c' [Hs|[-> ->]]%(seen_mark _ _ _ _ v' c' Hm).
      * destruct (Hset _ _ Hs) as [?|(d0 & ? & Hd0)]; [by left|right].
        exists d0. split; [done|]. simpl. destruct Hd0 as [?|Hcl].
        -- left. apply elem_of_app. by left.
        -- right. intros w cw ? ?. apply Hmono. by apply Hcl.
      * right. exists (D + 1). split; [done|]. left. simpl.
        apply elem_of_app. right. by apply list_elem_of_singleton.
    + intros v' c' [?|[= -> ->]%list_elem_of_singleton]%elem_of_app ?;
        [apply Hmono; by apply Hdone|done].
Qed.
Lemma Jnv_enter st u D p rest :
  Inv n E use_min st → q st = (u, D, p) :: rest →
  minlevel E u p D ∧ Jnv n E use_min u D p [] (State (dist st) (visited st) rest).
Proof.
  intros (Hc & Hset & Hq) Hst. rewrite Hst in Hq. destruct Hq as [Hlow Hlev].
  destruct (c_queue Hc u D p) as (Hs & Hmin & Hb);
    [rewrite Hst; by left|].
  split; [done|]. split; [|do 3 (split; [done|]); split].
  - split; simpl; try apply Hc.
    intros u' d' p' Hin. apply (c_queue Hc). rewrite Hst. by right.
  - simpl. intros v c Hvc. destruct (Hset _ _ Hvc) as (d & Hd & [Hin|Hcl]).
    + rewrite Hst in Hin. apply elem_of_cons in Hin as [[= -> -> ->]|Hin].
      * by left.
      * right. exists d. split; [done|]. by left.
    + right. exists d. split; [done|]. by right.
  - intros v c Hin. by apply elem_of_nil in Hin.
Qed.

Lemma Jnv_exit st u D p edges :
  minlevel E u p D → vget adj u = Some edges → Jnv n E use_min u D p edges st → Inv n E use_min st.
Proof.
  intros Hmin Hedges (Hc & Hb & Hlow & Hlev & Hset & Hdone).
  assert (∀ v c, seen (visited st) v c → settled E st v c) as Hall.
  { intros v c Hvc. destruct (Hset _ _ Hvc) as [[-> ->]|?]; [|done].
    exists D. split; [done|]. right. intros w cw Hw Hne.
    apply Hdone; [|done]. by eapply Hadj. }
  split; [done|]. split; [done|].
  destruct (q st) as [|[[u2 D2] p2] r] eqn:Hq; [done|].
  destruct Hlev as (qa & qb & Hqab & Ha & Hb').
  destruct qa as [|x qa]; simpl in Hqab.
  - (* the level is exhausted: the front is the first state of the next *)
    subst qb. assert (D2 = D + 1) as ->.
    { apply (Hb' (u2, D2, p2)). by left. }
    split.
    + intros v c k Hk Hle. destruct (decide (k ≤ D)); [by eapply Hlow|].
      destruct Hmin as [HuD _].
      destruct (reach_range n E Hn HE _ _ _ HuD) as (_ & _ & HD).
      destruct (reach_pred E _ _ _ Hk) as (u' & p' & Hu' & Hvc & Hne);
        [lia|].
      assert (seen (visited st) u' p') as Hs by (eapply Hlow; [done|lia]).
      destruct (Hall _ _ Hs) as (d0 & [_ Hd0] & [Hin|Hcl]).
      * rewrite Hq in Hin. apply Hb' in Hin. simpl in Hin.
        apply Hd0 in Hu'. lia.
      * by apply Hcl.
    + exists r, []. split; [by rewrite app_nil_r|]. split.
      * intros e He. apply Hb'. by right.
      * intros e He. by apply elem_of_nil in He.
  - injection Hqab as <- ->. assert (D2 = D) as ->.
    { apply (Ha (u2, D2, p2)). by left. }
    split; [done|]. exists qa, qb. split; [done|]. split; [|done].
    intros e He. apply Ha. by right.
Qed.

(** One iteration of the [while] loop keeps the invariant. *)
Lemma Inv_iter st front rest :
  Inv n E use_min st → q st = front :: rest →
  ∃ st', bfs_iter (pick use_min) adj front rest st = Some st' ∧ Inv n E use_min st'.
Proof.
  intros HI Hq. destruct front as [[u D] p].
  destruct (Jnv_enter _ _ _ _ _ HI Hq) as [Hmin HJ].
  destruct Hmin as [HuD HD].
  destruct (reach_range n E Hn HE _ _ _ HuD) as (Hu & _ & _).
  destruct (vget_in_range adj u) as [edges Hedges]; [lia|].
  unfold bfs_iter. rewrite Hedges. simpl.
  destruct (explore_rule (pick use_min) (Jnv n E use_min u D p) D p edges
              (State (dist st) (visited st) rest)) as (st' & Hex & HJ');
    [done| |].
  - intros seen_edges [v c] st1 [todo Htodo] HJ1.
    apply Jnv_visit; [done| |done].
    eapply Hadj; [done|]. rewrite Htodo. apply elem_of_app. right. by left.
  - exists st'. split; [done|]. by eapply Jnv_exit.
Qed.

(** When the queue is empty every reachable state has been seen. *)
Lemma Inv_complete st v c k :
  Inv n E use_min st → q st = [] → reach E v c k → seen (visited st) v c.
Proof.
  intros (Hc & Hset & _) Hq.
  induction 1 as [c [-> | ->]|u p v c k _ IH Huv Hne]; [apply Hc..|].
  destruct (Hset _ _ IH) as (d & _ & [Hin|Hcl]).
  - rewrite Hq in Hin. by apply elem_of_nil in Hin.
  - by apply Hcl.
Qed.

Lemma Inv_dist st v x :
  Inv n E use_min st → q st = [] → vget (dist st) v = Some x →
  (x = INT_MAX ∧ ∀ c k, ¬ reach E v c k) ∨
  (0 ≤ x < INT_MAX ∧ ∃ c, minlevel E v c x ∧
     (use_min = true → ∀ c' k, reach E v c' k → x ≤ k)).
Proof.
  intros HI Hq Hx. pose proof HI as (Hc & _ & _).
  destruct (c_some Hc _ _ Hx) as [[-> Hno]|[Hlt (c & Hs & Hmin)]].
  - left. split; [done|]. intros c k Hk. apply (Hno c).
    by eapply Inv_complete.
  - right. destruct (reach_range n E Hn HE v c x) as (_ & _ & ?);
      [apply Hmin|].
    split; [lia|]. exists c. split; [done|]. intros Hflag c' k Hk.
    eapply (c_least Hc Hflag); [done| |done]. by eapply Inv_complete.
Qed.

(** The state built on lines 16-36 satisfies the invariant. *)
Lemma Inv_init : ∃ st0, init n = Some st0 ∧ Inv n E use_min st0.
Proof.
  destruct (init_spec n Hn)
    as (dist1 & vis2 & Hinit & Hd & Hv & Hrows & Hseen & Hun & Hdist).
  eexists. split; [done|]. split; [split|split]; simpl; try done.
  - intros u d p Hin. rewrite Hun.
    assert (u = 0 ∧ d = 0 ∧ (p = 0 ∨ p = 1)) as (-> & -> & Hp).
    { apply elem_of_cons in Hin as [[= -> -> ->]|Hin]; [auto|].
      apply list_elem_of_singleton in Hin as [= -> -> ->]. auto. }
    split; [by apply Hseen|]. split; [by eapply minlevel_seed|lia].
  - split; apply Hseen; auto.
  - intros v x Hx. rewrite (Hdist _ _ Hx). case_decide as Hv0.
    + subst v. right. split; [done|]. exists 0.
      split; [apply Hseen; auto|]. eapply minlevel_seed; eauto.
    + left. split; [done|]. intros c [? _]%Hseen. done.
  - intros _ v x c k Hx [-> _]%Hseen Hk. rewrite (Hdist _ _ Hx).
    rewrite decide_True by done.
    by destruct (reach_range n E Hn HE _ _ _ Hk) as (_ & _ & ?).
  - intros v c [-> Hc]%Hseen. exists 0.
    split; [by eapply minlevel_seed|]. left. simpl.
    destruct Hc as [-> | ->]; [by left|right; by left].
  - split.
    + intros v c k Hk Hle.
      destruct (reach_range n E Hn HE _ _ _ Hk) as (_ & Hc & Hk0).
      assert (k = 0) as -> by lia.
      apply (reach_zero n E Hn HE) in Hk as ->. by apply Hseen.
    + exists [(0, 0, 1)], []. split; [done|]. split.
      * by intros e ->%list_elem_of_singleton.
      * intros e He. by apply elem_of_nil in He.
Qed.
End invariant.

(** ** The adjacency list holds exactly the coloured edges *)

Lemma add_edge_spec n color (adj : adjacency) edge :
  length adj = Z.to_nat n → edge_ok n edge →
  ∃ adj', add_edge color adj edge = Some adj' ∧
    length adj' = length adj ∧
    ∀ u row', vget adj' u = Some row' →
      ∃ row, vget adj u = Some row ∧
        ∀ v c, (v, c) ∈ row' ↔
               (v, c) ∈ row ∨
               (c = color ∧ vget edge 0 = Some u ∧ vget edge 1 = Some v).
Proof.
  intros Hlen (a & b & Ha & Hb & Hra & Hrb). unfold add_edge.
  rewrite Ha, Hb. simpl.
  destruct (vget_in_range adj a) as [row Hrow]; [lia|]. rewrite Hrow. simpl.
  destruct (vset_in_range adj a (row ++ [(b, color)])) as [adj' Hadj'];
    [lia|].
  exists adj'. split; [done|]. split; [by eapply vset_length|].
  intros u row' Hu. pose proof (vget_range _ _ _ Hu) as Hur.
  rewrite (vget_vset _ _ _ _ _ Hadj') in Hu by lia. case_decide.
  - simplify_eq. exists row. split; [done|]. intros v c.
    rewrite elem_of_app, list_elem_of_singleton. naive_solver.
  - exists row'. split; [done|]. intros v c. naive_solver.
Qed.

Lemma add_edges_spec n color edges (adj : adjacency) :
  length adj = Z.to_nat n → Forall (edge_ok n) edges →
  ∃ adj', add_edges color edges adj = Some adj' ∧
    length adj' = length adj ∧
    ∀ u row', vget adj' u = Some row' →
      ∃ row, vget adj u = Some row ∧
        ∀ v c, (v, c) ∈ row' ↔
               (v, c) ∈ row ∨ (c = color ∧ edge_in edges u v).
Proof.
  intros Hlen Hok. revert adj Hlen.
  induction Hok as [|edge edges Hedge _ IH]; intros adj Hlen; simpl.
  - exists adj. split; [done|]. split; [done|]. intros u row' Hu.
    exists row'. split; [done|]. intros v c. split; [by left|].
    intros [?|(_ & e & He & _)]; [done|]. by apply elem_of_nil in He.
  - destruct (add_edge_spec n color adj edge Hlen Hedge)
      as (adj1 & -> & Hlen1 & H1). simpl.
    destruct (IH adj1) as (adj' & -> & Hlen' & H'); [congruence|].
    exists adj'. split; [done|]. split; [congruence|].
    intros u row' Hu. destruct (H' _ _ Hu) as (row1 & Hu1 & Hrow').
    destruct (H1 _ _ Hu1) as (row & Hu0 & Hrow1).
    exists row. split; [done|]. intros v c.
    rewrite Hrow', Hrow1. unfold edge_in. split.
    + intros [[?|(-> & ? & ?)]|(-> & e & ? & ?)]; [by left|right..].
      * split; [done|]. exists edge. split; [by left|done].
      * split; [done|]. exists e. split; [by right|done].
    + intros [?|(-> & e & [->|?]%elem_of_cons & ? & ?)].
      * by left; left.
      * left. by right.
      * right. split; [done|]. by exists e.
Qed.

Lemma build_spec n red blue :
  valid_input n red blue →
  ∃ adj, build n red blue = Some adj ∧
    length adj = Z.to_nat n ∧
    ∀ u row, vget adj u = Some row →
      ∀ v c, (v, c) ∈ row ↔ colored red blue u v c.
Proof.
  intros (Hn & Hred & Hblue). unfold build.
  rewrite vnew_nonneg by lia. simpl.
  destruct (add_edges_spec n 0 red (replicate (Z.to_nat n) []))
    as (adj1 & -> & Hlen1 & H1); [apply length_replicate|done|]. simpl.
  rewrite length_replicate in Hlen1.
  destruct (add_edges_spec n 1 blue adj1) as (adj & -> & Hlen & H2);
    [done..|].
  exists adj. split; [done|]. split; [congruence|].
  intros u row Hu v c. destruct (H2 _ _ Hu) as (row1 & Hu1 & ->).
  destruct (H1 _ _ Hu1) as (row0 & Hu0 & ->).
  apply vget_Some in Hu0 as [_ Hu0].
  apply lookup_replicate in Hu0 as [-> _]. unfold colored.
  rewrite elem_of_nil. tauto.
Qed.

Lemma colored_range n red blue u v c :
  valid_input n red blue → colored red blue u v c →
  0 ≤ u < n ∧ 0 ≤ v < n ∧ (c = 0 ∨ c = 1).
Proof.
  intros (_ & Hred & Hblue) [[-> He]|[-> He]];
    destruct He as (e & Hin & H0 & H1);
    [rewrite Forall_forall in Hred; apply Hred in Hin
    |rewrite Forall_forall in Hblue; apply Hblue in Hin];
    destruct Hin as (a & b & ? & ? & ? & ?); simplify_eq; auto.
Qed.

(** The body of the function, on the contents of the two lists. *)
Lemma returned_eq relax n red blue :
  returned (shortestAlternatingPaths_with relax) n red blue =
  adj ← build n red blue; search relax n adj.
Proof.
  unfold returned, shortestAlternatingPaths_with, build, read_red, read_blue,
    local, mbind, call_bind. simpl.
  destruct (vnew n []) as [adj0|]; [|done]. simpl.
  destruct (add_edges 0 red adj0) as [adj1|]; [|done]. simpl.
  destruct (add_edges 1 blue adj1) as [adj|]; [|done]. simpl.
  by destruct (search relax n adj).
Qed.

(** ** Walks and the search space *)

Section walks.
Variables red blue : list (list Z).





End walks.

(** ** The result of the search *)

Section result.
Variable n : Z.
Variables red blue : list (list Z).
Variable use_min : bool.
Hypothesis Hvalid : valid_input n red blue.
Hypothesis Hfit : fits_int n.

Lemma search_run :
  ∃ adj st0 popped pushed st,
    build n red blue = Some adj ∧ init n = Some st0 ∧
    run (pick use_min) adj st0 popped pushed st ∧
    Inv n (colored red blue) use_min st.
Proof.
  destruct (build_spec _ _ _ Hvalid) as (adj & Hbuild & Hlen & Hadj).
  pose proof Hvalid as (Hn & _).
  pose proof (λ u v c, colored_range n red blue u v c Hvalid) as HE.
  destruct (Inv_init n (colored red blue) adj use_min Hn HE Hlen)
    as (st0 & Hinit & H0).
  destruct (run_rule (pick use_min) adj (Inv n (colored red blue) use_min))
    with (st := st0) as (popped & pushed & st & Hrun & Hst); [|done|].
  { intros st front rest. by apply Inv_iter. }
  by exists adj, st0, popped, pushed, st.
Qed.

Lemma returned_spec :
  ∃ res,
    returned (shortestAlternatingPaths_with (pick use_min)) n red blue
      = Some res ∧
    length res = Z.to_nat n ∧
    ∀ v r, vget res v = Some r →
      (r = -1 ∧ ∀ c k, ¬ reach (colored red blue) v c k) ∨
      (0 ≤ r < INT_MAX ∧
       ∃ c, minlevel (colored red blue) v c r ∧
         (use_min = true →
          ∀ c' k, reach (colored red blue) v c' k → r ≤ k)).
Proof.
  destruct search_run
    as (adj & st0 & popped & pushed & st & Hbuild & Hinit & Hrun & HI).
  destruct (build_spec _ _ _ Hvalid) as (adj' & Hbuild' & Hlen & _).
  assert (adj' = adj) as -> by congruence.
  pose proof Hvalid as (Hn & _).
  pose proof (λ u v c, colored_range n red blue u v c Hvalid) as HE.
  pose proof (run_final _ _ _ _ _ _ Hrun) as Hq.
  pose proof HI as (Hc & _ & _).
  exists (map clean (dist st)). rewrite returned_eq, Hbuild. simpl.
  unfold search. rewrite Hinit. simpl.
  rewrite (run_bfs _ _ _ _ _ _ Hrun). simpl.
  split; [apply finalize_all, Hc|].
  split; [rewrite length_map; apply Hc|].
  intros v r [Hv Hr]%vget_Some. rewrite list_lookup_fmap in Hr.
  destruct (dist st !! Z.to_nat v) as [x|] eqn:Hx; [|done].
  injection Hr as <-.
  assert (vget (dist st) v = Some x) as Hget by (by apply vget_Some).
  destruct (Inv_dist n (colored red blue) adj use_min Hn HE Hlen
              st v x HI Hq Hget)
    as [[-> Hno]|[Hr Hmin]]; unfold clean.
  - left. by rewrite decide_True.
  - right. rewrite decide_False by lia. done.
Qed.
End result.

(** ** Memory safety on valid inputs

    No bound on [n] is needed for the search to run to completion: every
    index it uses is in range. *)

Section safe.
Variable n : Z.
Variable relax : Z → Z → Z.
Variable adj : adjacency.
Hypothesis Hadj_len : length adj = Z.to_nat n.
Hypothesis Hadj_range :
  ∀ u row, vget adj u = Some row →
  ∀ v c, (v, c) ∈ row → 0 ≤ v < n ∧ (c = 0 ∨ c = 1).

Lemma Safe_visit d p st v c :
  Safe n st → 0 ≤ v < n → c = 0 ∨ c = 1 →
  ∃ st', visit relax d p st (v, c) = Some st' ∧ Safe n st'.
Proof.
  intros (Hd & Hv & Hrows & Hq) Hvr Hc.
  destruct (visit_spec relax n d p st v c)
    as [[-> _]|(_ & _ & vis' & old & dist' & Hm & _ & Hput & ->)];
    [done..| |].
  - by exists st.
  - eexists. split; [done|]. split; [|split; [|split]]; simpl.
    + by erewrite vset_length.
    + by erewrite mark_length.
    + by eapply mark_rows.
    + intros e [?|He%list_elem_of_singleton]%elem_of_app;
        [by apply Hq|by subst].
Qed.

Lemma Safe_iter st front rest :
  Safe n st → q st = front :: rest →
  ∃ st', bfs_iter relax adj front rest st = Some st' ∧ Safe n st'.
Proof.
  intros (Hd & Hv & Hrows & Hq) Hst. destruct front as [[u d] p].
  assert (0 ≤ u < n) as Hu by (apply (Hq (u, d, p)); rewrite Hst; by left).
  destruct (vget_in_range adj u) as [edges Hedges]; [lia|].
  unfold bfs_iter. rewrite Hedges. simpl.
  apply (explore_rule relax (λ _, Safe n)).
  - split; [done|]. split; [done|]. split; [done|]. simpl.
    intros e He. apply Hq. rewrite Hst. by right.
  - intros seen_edges [v c] st1 [todo Htodo] Hst1.
    destruct (Hadj_range u edges Hedges v c) as [Hvr Hc].
    { rewrite Htodo. apply elem_of_app. right. by left. }
    by apply Safe_visit.
Qed.
End safe.

(** ** Every state is pushed at most once *)

Section fresh.
Variable relax : Z → Z → Z.
Variable adj : adjacency.

Lemma fresh_nil st : fresh st [] st.
Proof.
  split; [constructor|]. split; [|split; [done|simpl; lia]].
  intros e He. by apply elem_of_nil in He.
Qed.

Lemma fresh_app st new1 st1 new2 st2 :
  fresh st new1 st1 → fresh st1 new2 st2 → fresh st (new1 ++ new2) st2.
Proof.
  intros (Hnd1 & Hnew1 & Hmono1 & Hcount1) (Hnd2 & Hnew2 & Hmono2 & Hcount2).
  split; [|split; [|split]].
  - rewrite map_app. apply NoDup_app. split; [done|]. split; [|done].
    intros k [e1 [-> He1]]%list_elem_of_fmap [e2 [Hk He2]]%list_elem_of_fmap.
    destruct (Hnew1 _ He1) as [_ Hs1]. destruct (Hnew2 _ He2) as [Hs2 _].
    unfold key in Hk. injection Hk as Hk1 Hk2. rewrite Hk1, Hk2 in Hs1. done.
  - intros e [He|He]%elem_of_app.
    + destruct (Hnew1 _ He). split; [done|]. by apply Hmono2.
    + destruct (Hnew2 _ He) as [Hs ?]. split; [|done].
      intros Hold. by apply Hs, Hmono1.
  - intros v c ?. by apply Hmono2, Hmono1.
  - rewrite length_app. lia.
Qed.

Lemma visit_fresh_new d p st e st' :
  visit relax d p st e = Some st' →
  ∃ new, q st' = q st ++ new ∧ fresh st new st'.
Proof.
  intros [->|(d' & Hq & Hnew & Hm & Hcount)]%visit_fresh.
  - exists []. split; [by rewrite app_nil_r|apply fresh_nil].
  - exists [(e.1, d', e.2)]. split; [done|]. split; [|split; [|split]].
    + simpl. apply NoDup_singleton.
    + intros x ->%list_elem_of_singleton. simpl. split; [done|].
      apply (seen_mark _ _ _ _ e.1 e.2 Hm). by right.
    + intros v c ?. apply (seen_mark _ _ _ _ v c Hm). by left.
    + simpl. lia.
Qed.

Lemma explore_fresh edges d p st st' :
  explore relax edges d p st = Some st' →
  ∃ new, q st' = q st ++ new ∧ fresh st new st'.
Proof.
  revert st. induction edges as [|e edges IH]; intros st; simpl.
  - intros [= ->]. exists []. split; [by rewrite app_nil_r|apply fresh_nil].
  - destruct (visit relax d p st e) as [st1|] eqn:Hv; [|done]. simpl.
    intros (new2 & Hq2 & H2)%IH.
    apply visit_fresh_new in Hv as (new1 & Hq1 & H1).
    exists (new1 ++ new2). split; [by rewrite Hq2, Hq1, app_assoc|].
    by eapply fresh_app.
Qed.

Lemma run_fresh st popped pushed st' :
  run relax adj st popped pushed st' → fresh st pushed st'.
Proof.
  induction 1
    as [st Hq|st front rest st1 new popped pushed st' Hq Hit Hnew _ IH];
    [apply fresh_nil|].
  eapply fresh_app; [|done].
  unfold bfs_iter in Hit. destruct front as [[u d] p].
  destruct (vget adj u) as [edges|]; [|done]. simpl in Hit.
  apply explore_fresh in Hit as (new' & Hq' & Hfresh). simpl in Hq'.
  rewrite Hnew in Hq'. apply app_inv_head in Hq' as ->.
  destruct Hfresh as (? & ? & ? & ?). done.
Qed.
End fresh.

(** ** Totality *)

Section total.
Variable relax : Z → Z → Z.
Variable n : Z.
Variables red blue : list (list Z).
Hypothesis Hvalid : valid_input n red blue.

(** On a valid input the loop runs to an empty queue. *)
Lemma total_run :
  ∃ adj st0 popped pushed st,
    build n red blue = Some adj ∧
    init n = Some st0 ∧
    q st0 = [(0, 0, 0); (0, 0, 1)] ∧
    (∀ v c, seen (visited st0) v c ↔ v = 0 ∧ (c = 0 ∨ c = 1)) ∧
    Z.of_nat (unvisited (visited st0)) = 2 * n - 2 ∧
    run relax adj st0 popped pushed st ∧
    length (dist st) = Z.to_nat n.
Proof.
  destruct (build_spec _ _ _ Hvalid) as (adj & Hbuild & Hlen & Hadj).
  pose proof Hvalid as (Hn & _).
  destruct (init_spec n Hn)
    as (dist1 & vis2 & Hinit & Hd & Hv & Hrows & Hseen & Hun & _).
  destruct (run_rule relax adj (Safe n))
    with (st := State dist1 vis2 [(0, 0, 0); (0, 0, 1)])
    as (popped & pushed & st & Hrun & Hst).
  - intros st front rest. apply Safe_iter; [done|].
    intros u row Hrow v c Hin%(Hadj u row Hrow).
    destruct (colored_range n red blue u v c Hvalid Hin) as (_ & ? & ?).
    done.
  - split; [done|]. split; [done|]. split; [done|]. simpl.
    intros e [He|He%list_elem_of_singleton]%elem_of_cons; subst; simpl; lia.
  - exists adj, (State dist1 vis2 [(0, 0, 0); (0, 0, 1)]), popped, pushed, st.
    destruct Hst as (? & _). done.
Qed.

Lemma returned_total :
  ∃ res, returned (shortestAlternatingPaths_with relax) n red blue = Some res ∧
         length res = Z.to_nat n.
Proof.
  destruct total_run
    as (adj & st0 & popped & pushed & st & Hbuild & Hinit & _ & _ & _ &
        Hrun & Hlen).
  exists (map clean (dist st)). rewrite returned_eq, Hbuild. simpl.
  unfold search. rewrite Hinit. simpl.
  rewrite (run_bfs _ _ _ _ _ _ Hrun). simpl.
  split; [by apply finalize_all|]. by rewrite length_map.
Qed.
End total.

(** ** The result is determined by the coloured edge set *)



Lemma reach_edge (E : Z → Z → Z → Prop) v c k :
  reach E v c k → v = 0 ∨ ∃ u, E u v c.
Proof. inversion 1; [by left|right; eauto]. Qed.




(** ** The caller's objects

    The by-reference parameters are only read. *)
Lemma call_frame relax n m :
  shortestAlternatingPaths_with relax n m =
  match returned (shortestAlternatingPaths_with relax) n
          (redEdges m) (blueEdges m) with
  | Some res => Some (res, m)
  | None => None
  end.
Proof.
  destruct m as [red blue].
  unfold returned, shortestAlternatingPaths_with, read_red, read_blue, local,
    mbind, call_bind. simpl.
  destruct (vnew n []) as [adj0|]; [|done]. simpl.
  destruct (add_edges 0 red adj0) as [adj1|]; [|done]. simpl.
  destruct (add_edges 1 blue adj1) as [adj|]; [|done]. simpl.
  by destruct (search relax n adj).
Qed.

(** * The properties of [shortestAlternatingPaths] *)

(** Discharges [valid_input] on a concrete input. *)
Ltac valid_example :=
  split; [lia|];
  split; repeat constructor;
  eexists _, _; (split; [reflexivity|]); (split; [reflexivity|]); lia.

Ltac fits_example := unfold fits_int, INT_MAX; lia.

(** The documented scenarios. *)
Example scenario_1 :
  returned shortestAlternatingPaths 3 [[0; 1]] [[2; 1]] = Some [0; 1; -1].
Proof. vm_compute. reflexivity. Qed.

Example scenario_2 :
  returned shortestAlternatingPaths 3 [[0; 1]] [[1; 2]] = Some [0; 1; 2].
Proof. vm_compute. reflexivity. Qed.

Example scenario_3 :
  returned shortestAlternatingPaths 3 [[1; 0]] [[2; 1]] = Some [0; -1; -1].
Proof. vm_compute. reflexivity. Qed.

Example scenario_4 : returned shortestAlternatingPaths 1 [] [] = Some [0].
Proof. vm_compute. reflexivity. Qed.

Example scenario_5 :
  returned shortestAlternatingPaths 3 [[0; 1]; [1; 2]; [2; 0]] []
    = Some [0; 1; -1].
Proof. vm_compute. reflexivity. Qed.





(** C3, as stated, fails: nothing validates the endpoints.  Here an
    endpoint is 5 with [n = 2]; the edge leaves a node the search never
    reaches, and a distance sequence is returned. *)
Lemma out_of_range_endpoint_not_reported :
  bad_endpoint 2 [[1; 5]] [] ∧
  returned shortestAlternatingPaths 2 [[1; 5]] [] = Some [0; -1].
Proof.
  split; [|vm_compute; reflexivity].
  exists [1; 5], 5. split; [by left|]. split; [|lia].
  right. by left.
Qed.

(** When the search does follow such an edge, the unchecked access
    [visited[5]] is undefined behaviour, not a reported error. *)
Example out_of_range_endpoint_followed :
  returned shortestAlternatingPaths 2 [[0; 5]] [] = None.
Proof. vm_compute. reflexivity. Qed.

(** C3, amended. For inputs with [n ≥ 1] and all endpoints in range the
    function never fails: every vector access is in bounds and a sequence
    of [n] entries is returned. *)
Theorem in_range_inputs_never_fail n red blue :
  valid_input n red blue →
  ∃ res, returned shortestAlternatingPaths n red blue = Some res ∧
         length res = Z.to_nat n.
Proof. intros Hvalid. by apply returned_total. Qed.

Lemma in_range_inputs_never_fail_witness :
  ∃ res, returned shortestAlternatingPaths 3 [[0; 1]] [[2; 1]] = Some res ∧
         length res = Z.to_nat 3.
Proof.
  apply (in_range_inputs_never_fail 3 [[0; 1]] [[2; 1]]). valid_example.
Defined.

(** C4. On a valid input, cycles, self-loops and duplicate edges included,
    the [while] loop reaches an empty queue; the entries it processes are
    the two seeds followed by the entries pushed, at most [2n] in all, and
    the function returns. *)
Theorem bfs_terminates_within_2n_pushes n red blue :
  valid_input n red blue →
  ∃ adj st0 popped pushed st res,
    build n red blue = Some adj ∧
    init n = Some st0 ∧
    run relax_min adj st0 popped pushed st ∧
    bfs relax_min adj st0 = Some st ∧
    q st = [] ∧
    popped = q st0 ++ pushed ∧
    length (q st0) = 2%nat ∧
    2 + Z.of_nat (length pushed) ≤ 2 * n ∧
    returned shortestAlternatingPaths n red blue = Some res.
Proof.
  intros Hvalid.
  destruct (total_run relax_min n red blue Hvalid)
    as (adj & st0 & popped & pushed & st & Hbuild & Hinit & Hq0 & _ & Hun &
        Hrun & _).
  destruct (returned_total relax_min n red blue Hvalid) as (res & Hres & _).
  exists adj, st0, popped, pushed, st, res.
  do 3 (split; [done|]).
  split; [by eapply run_bfs|]. split; [by eapply run_final|].
  split; [by eapply run_fifo|]. split; [by rewrite Hq0|]. split; [|done].
  destruct (run_fresh _ _ _ _ _ _ Hrun) as (_ & _ & _ & Hcount). lia.
Qed.

Lemma bfs_terminates_within_2n_pushes_witness :
  ∃ adj st0 popped pushed st res,
    build 3 [[0; 1]; [1; 2]; [2; 0]; [1; 1]] [[1; 0]; [1; 0]] = Some adj ∧
    init 3 = Some st0 ∧
    run relax_min adj st0 popped pushed st ∧
    bfs relax_min adj st0 = Some st ∧
    q st = [] ∧
    popped = q st0 ++ pushed ∧
    length (q st0) = 2%nat ∧
    2 + Z.of_nat (length pushed) ≤ 2 * 3 ∧
    returned shortestAlternatingPaths 3
      [[0; 1]; [1; 2]; [2; 0]; [1; 1]] [[1; 0]; [1; 0]] = Some res.
Proof.
  apply (bfs_terminates_within_2n_pushes 3
           [[0; 1]; [1; 2]; [2; 0]; [1; 1]] [[1; 0]; [1; 0]]).
  valid_example.
Defined.

(** C5. On a valid input no (node, colour) state is processed twice: the
    states of the processed entries, the seeds followed by the pushed
    entries, are pairwise distinct; every pushed state had its flag clear
    at the start and set at the end, and no flag is ever cleared.  Each
    single visit either changes nothing or sets one clear flag and pushes
    that state. *)
Theorem each_state_enqueued_once n red blue :
  valid_input n red blue →
  (∃ adj st0 popped pushed st,
     build n red blue = Some adj ∧
     init n = Some st0 ∧
     run relax_min adj st0 popped pushed st ∧
     bfs relax_min adj st0 = Some st ∧
     popped = q st0 ++ pushed ∧
     NoDup (map key popped) ∧
     (∀ e, e ∈ pushed →
           ¬ seen (visited st0) e.1.1 e.2 ∧ seen (visited st) e.1.1 e.2) ∧
     (∀ v c, seen (visited st0) v c → seen (visited st) v c)) ∧
  (∀ d p s e s',
     visit relax_min d p s e = Some s' →
     (∀ v c, seen (visited s) v c → seen (visited s') v c) ∧
     (s' = s ∨
      ∃ d', q s' = q s ++ [(e.1, d', e.2)] ∧
            ¬ seen (visited s) e.1 e.2 ∧ seen (visited s') e.1 e.2)).
Proof.
  intros Hvalid. split.
  - destruct (total_run relax_min n red blue Hvalid)
      as (adj & st0 & popped & pushed & st & Hbuild & Hinit & Hq0 & Hseen &
          _ & Hrun & _).
    exists adj, st0, popped, pushed, st. do 3 (split; [done|]).
    split; [by eapply run_bfs|].
    pose proof (run_fifo _ _ _ _ _ _ Hrun) as Hfifo.
    destruct (run_fresh _ _ _ _ _ _ Hrun) as (Hnd & Hnew & Hmono & _).
    split; [done|]. split; [|done].
    rewrite Hfifo, Hq0. simpl.
    assert (∀ c, c = 0 ∨ c = 1 → (0, c) ∉ map key pushed) as Hseed.
    { intros c Hc [e [Hk He]]%list_elem_of_fmap.
      destruct (Hnew _ He) as [Hs _]. apply Hs.
      unfold key in Hk. injection Hk as <- <-. by apply Hseen. }
    apply NoDup_cons. split.
    { intros [[=]|Hin]%elem_of_cons. by eapply (Hseed 0); [left|]. }
    apply NoDup_cons. split; [|done]. apply Hseed. by right.
  - intros d p s e s' Hv.
    destruct (visit_fresh _ _ _ _ _ _ Hv) as [->|(d' & Hq & Hnew & Hm & _)].
    + split; [done|]. by left.
    + split.
      * intros v c ?. apply (seen_mark _ _ _ _ v c Hm). by left.
      * right. exists d'. do 2 (split; [done|]).
        apply (seen_mark _ _ _ _ e.1 e.2 Hm). by right.
Qed.

Lemma each_state_enqueued_once_witness :
  (∃ adj st0 popped pushed st,
     build 3 [[0; 1]; [1; 2]; [2; 0]; [0; 1]] [[1; 0]; [1; 1]] = Some adj ∧
     init 3 = Some st0 ∧
     run relax_min adj st0 popped pushed st ∧
     bfs relax_min adj st0 = Some st ∧
     popped = q st0 ++ pushed ∧
     NoDup (map key popped) ∧
     (∀ e, e ∈ pushed →
           ¬ seen (visited st0) e.1.1 e.2 ∧ seen (visited st) e.1.1 e.2) ∧
     (∀ v c, seen (visited st0) v c → seen (visited st) v c)) ∧
  (∀ d p s e s',
     visit relax_min d p s e = Some s' →
     (∀ v c, seen (visited s) v c → seen (visited s') v c) ∧
     (s' = s ∨
      ∃ d', q s' = q s ++ [(e.1, d', e.2)] ∧
            ¬ seen (visited s) e.1 e.2 ∧ seen (visited s') e.1 e.2)).
Proof.
  apply (each_state_enqueued_once 3
           [[0; 1]; [1; 2]; [2; 0]; [0; 1]] [[1; 0]; [1; 1]]).
  valid_example.
Defined.

(** C9. The vectors passed by reference hold the same contents after the
    call as before. *)
Theorem inputs_unchanged n m res m' :
  shortestAlternatingPaths n m = Some (res, m') → m' = m.
Proof.
  unfold shortestAlternatingPaths. rewrite call_frame.
  destruct (returned _ n (redEdges m) (blueEdges m)); [|done].
  by intros [= _ <-].
Qed.

Lemma inputs_unchanged_witness :
  ∃ res m',
    shortestAlternatingPaths 3 (Caller [[0; 1]] [[1; 2]]) = Some (res, m') ∧
    m' = Caller [[0; 1]] [[1; 2]].
Proof.
  exists [0; 1; 2], (Caller [[0; 1]] [[1; 2]]).
  split; [vm_compute; reflexivity|].
  apply (inputs_unchanged 3 (Caller [[0; 1]] [[1; 2]]) [0; 1; 2]).
  vm_compute. reflexivity.
Defined.





(** C2, as stated, fails: the [std::min] is not redundant.  Node 1 is
    first reached over a red edge at distance 1 and later over a blue edge
    at distance 2; the unconditional assignment overwrites 1 with 2. *)
Lemma assign_variant_differs :
  valid_input 3 [[0; 1]; [0; 2]] [[2; 1]] ∧
  returned shortestAlternatingPaths 3 [[0; 1]; [0; 2]] [[2; 1]]
    = Some [0; 1; 1] ∧
  returned shortestAlternatingPaths_assign 3 [[0; 1]; [0; 2]] [[2; 1]]
    = Some [0; 2; 1] ∧
  returned shortestAlternatingPaths_assign 3 [[0; 1]; [0; 2]] [[2; 1]] ≠
  returned shortestAlternatingPaths 3 [[0; 1]; [0; 2]] [[2; 1]].
Proof.
  split; [valid_example|]. split; [vm_compute; reflexivity|].
  split; [vm_compute; reflexivity|]. vm_compute. discriminate.
Qed.

(** C2, amended. On a valid input the variant returns a sequence of the
    same length that is [-1] at exactly the same indices and is nowhere
    below the original; the two agree at node 0 and at every node whose
    incoming edges all have one colour. *)
Theorem assign_variant_bounds n red blue :
  valid_input n red blue → fits_int n →
  ∃ res res',
    returned shortestAlternatingPaths n red blue = Some res ∧
    returned shortestAlternatingPaths_assign n red blue = Some res' ∧
    length res' = length res ∧
    ∀ i a b, vget res i = Some a → vget res' i = Some b →
      (b = -1 ↔ a = -1) ∧ a ≤ b ∧
      (i = 0 ∨ (∃ c0, ∀ u c, colored red blue u i c → c = c0) → b = a).
Proof.
  intros Hvalid Hfit.
  destruct (returned_spec n red blue true Hvalid Hfit)
    as (res & Hres & Hlen & Hspec).
  destruct (returned_spec n red blue false Hvalid Hfit)
    as (res' & Hres' & Hlen' & Hspec').
  exists res, res'. do 2 (split; [done|]). split; [congruence|].
  intros i a b Ha Hb.
  pose proof Hvalid as (Hn & _).
  pose proof (λ u v c, colored_range n red blue u v c Hvalid) as HE.
  destruct (Hspec _ _ Ha) as [[-> Hno]|[[Ha0 _] (ca & [Hca Hmina] & Hleast)]];
    destruct (Hspec' _ _ Hb) as [[-> Hno']|[[Hb0 _] (cb & [Hcb Hminb] & _)]].
  - done.
  - by destruct (Hno cb b).
  - by destruct (Hno' ca a).
  - specialize (Hleast eq_refl).
    split; [lia|]. split; [by eapply Hleast|]. intros Hone.
    assert (a ≤ b) by (by eapply Hleast).
    cut (b ≤ a); [lia|].
    destruct (decide (i = 0)) as [->|Hi].
    + destruct (reach_range n _ Hn HE _ _ _ Hcb) as (_ & Hc & _).
      transitivity 0; [|done]. apply Hminb. by constructor.
    + destruct Hone as [?|[c0 Hc0]]; [done|].
      destruct (reach_edge _ _ _ _ Hca) as [?|[ua Hua]]; [done|].
      destruct (reach_edge _ _ _ _ Hcb) as [?|[ub Hub]]; [done|].
      apply Hc0 in Hua, Hub. subst. by apply Hminb.
Qed.

Lemma assign_variant_bounds_witness :
  ∃ res res',
    returned shortestAlternatingPaths 3 [[0; 1]; [0; 2]] [[2; 1]]
      = Some res ∧
    returned shortestAlternatingPaths_assign 3 [[0; 1]; [0; 2]] [[2; 1]]
      = Some res' ∧
    length res' = length res ∧
    ∀ i a b, vget res i = Some a → vget res' i = Some b →
      (b = -1 ↔ a = -1) ∧ a ≤ b ∧
      (i = 0 ∨
       (∃ c0, ∀ u c, colored [[0; 1]; [0; 2]] [[2; 1]] u i c → c = c0) →
       b = a).
Proof.
  apply (assign_variant_bounds 3 [[0; 1]; [0; 2]] [[2; 1]]);
    [valid_example|fits_example].
Defined.

(** * Further properties of the code *)

(** ** Building the adjacency list (lines 12-14) *)

Lemma add_edge_rows color (adj adj' : adjacency) edge :
  add_edge color adj edge = Some adj' →
  length adj' = length adj ∧
  ∀ u row, vget adj u = Some row →
           vget adj' u = Some (row ++ out_edges color u [edge]).
Proof.
  unfold add_edge, out_edges. simpl.
  destruct (vget edge 0) as [a|]; [|done]. simpl.
  destruct (vget edge 1) as [b|]; [|done]. simpl.
  destruct (vget adj a) as [row0|] eqn:Hrow0; [|done]. simpl.
  intros Hset. split; [by eapply vset_length|]. intros u row Hrow.
  pose proof (vget_range _ _ _ Hrow) as Hu.
  rewrite (vget_vset _ _ _ _ _ Hset) by lia.
  destruct (decide (u = a)) as [->|Hne].
  - rewrite decide_True by done. simpl. congruence.
  - rewrite decide_False by congruence. simpl. by rewrite app_nil_r.
Qed.

Lemma out_edges_cons color u edge edges :
  out_edges color u (edge :: edges) =
  out_edges color u [edge] ++ out_edges color u edges.
Proof.
  unfold out_edges. simpl.
  by destruct (_ ≫= _) as [x|].
Qed.

Lemma add_edges_rows color edges (adj adj' : adjacency) :
  add_edges color edges adj = Some adj' →
  length adj' = length adj ∧
  ∀ u row, vget adj u = Some row →
           vget adj' u = Some (row ++ out_edges color u edges).
Proof.
  revert adj. induction edges as [|edge edges IH]; intros adj Hadd;
    simpl in Hadd.
  - injection Hadd as <-. split; [done|]. intros u row ->.
    unfold out_edges. simpl. by rewrite app_nil_r.
  - destruct (add_edge color adj edge) as [adj1|] eqn:H1; [|done].
    simpl in Hadd. apply IH in Hadd as [Hlen Hrows].
    apply add_edge_rows in H1 as [Hlen1 Hrows1].
    split; [congruence|]. intros u row Hrow.
    rewrite (out_edges_cons color u edge edges), app_assoc.
    by apply Hrows, Hrows1.
Qed.

(** X1. When the adjacency list can be built it has [n] rows, and row [u]
    lists the red edges leaving [u] in the order of [redEdges], tagged 0,
    followed by the blue edges leaving [u] in the order of [blueEdges],
    tagged 1.  Destinations are stored unchecked. *)
Theorem build_rows n red blue adj u :
  build n red blue = Some adj → 0 ≤ u < n →
  length adj = Z.to_nat n ∧
  vget adj u = Some (out_edges 0 u red ++ out_edges 1 u blue).
Proof.
  unfold build. intros Hbuild Hu.
  rewrite vnew_nonneg in Hbuild by lia. simpl in Hbuild.
  destruct (add_edges 0 red _) as [adj1|] eqn:H1; [|done]. simpl in Hbuild.
  apply add_edges_rows in H1 as [Hlen1 Hrows1].
  apply add_edges_rows in Hbuild as [Hlen Hrows].
  rewrite length_replicate in Hlen1. split; [congruence|].
  apply Hrows. apply (Hrows1 u []). apply vget_Some. split; [lia|].
  apply lookup_replicate. split; [done|lia].
Qed.

Lemma build_rows_witness :
  length [[(1, 0); (2, 0); (1, 1)]; []; [(0, 1)]] = Z.to_nat 3 ∧
  vget [[(1, 0); (2, 0); (1, 1)]; []; [(0, 1)]] 0 =
    Some (out_edges 0 0 [[0; 1]; [0; 2]] ++ out_edges 1 0 [[2; 0]; [0; 1]]).
Proof.
  apply (build_rows 3 [[0; 1]; [0; 2]] [[2; 0]; [0; 1]]);
    [vm_compute; reflexivity|lia].
Defined.

Lemma add_edge_is_Some n color (adj : adjacency) edge :
  length adj = Z.to_nat n →
  is_Some (add_edge color adj edge) ↔ source_ok n edge.
Proof.
  intros Hlen. unfold add_edge, source_ok. split.
  - intros [adj' H].
    destruct (vget edge 0) as [a|]; [|done]. simpl in H.
    destruct (vget edge 1) as [b|]; [|done]. simpl in H.
    destruct (vget adj a) as [row|] eqn:Hrow; [|done].
    apply vget_range in Hrow. exists a, b. do 2 (split; [done|]). lia.
  - intros (a & b & -> & -> & Ha). simpl.
    destruct (vget_in_range adj a) as [row ->]; [lia|]. simpl.
    destruct (vset_in_range adj a (row ++ [(b, color)])) as [adj' ->]; [lia|].
    by exists adj'.
Qed.

Lemma add_edges_is_Some n color edges (adj : adjacency) :
  length adj = Z.to_nat n →
  is_Some (add_edges color edges adj) ↔ Forall (source_ok n) edges.
Proof.
  revert adj. induction edges as [|edge edges IH]; intros adj Hlen; simpl.
  - split; [by constructor|by eexists].
  - rewrite Forall_cons, <- (add_edge_is_Some n color adj edge Hlen).
    destruct (add_edge color adj edge) as [adj1|] eqn:H1; simpl.
    + rewrite IH; [|apply add_edge_rows in H1 as [-> _]; done].
      split; [by split|by intros [_ ?]].
    + split; [by intros [? [=]]|by intros [[? [=]] _]].
Qed.

(** X2. Lines 12-14 run to their end, with nothing thrown and every
    access in bounds, exactly when [n ≥ 0] and every listed edge has two
    entries and a source in [0, n-1].  A negative [n] makes the constructor
    of [adj] throw; any other edge makes the unchecked [adj[edge[0]]] or
    [edge[...]] leave its vector.  The destination plays no part here. *)
Theorem build_succeeds_iff n red blue :
  is_Some (build n red blue) ↔ 0 ≤ n ∧ Forall (source_ok n) (red ++ blue).
Proof.
  unfold build. destruct (decide (0 ≤ n)) as [Hn|Hn].
  - rewrite vnew_nonneg by done. simpl. rewrite Forall_app.
    rewrite <- (add_edges_is_Some n 0 red (replicate (Z.to_nat n) []))
      by apply length_replicate.
    destruct (add_edges 0 red _) as [adj1|] eqn:H1; simpl.
    + rewrite (add_edges_is_Some n 1 blue adj1).
      * split; [by repeat split|by intros (_ & _ & ?)].
      * apply add_edges_rows in H1 as [-> _]. apply length_replicate.
    + split; [by intros [? [=]]|by intros (_ & [? [=]] & _)].
  - rewrite vnew_negative by lia. simpl.
    split; [by intros [? [=]]|by intros [? _]].
Qed.

(** ** The node count (lines 12, 16 and 26) *)

Lemma init_nonpositive n : n ≤ 0 → init n = None.
Proof.
  intros Hn. unfold init. destruct (decide (n = 0)) as [->|Hne]; [done|].
  rewrite (vnew_negative n INT_MAX) by lia. done.
Qed.

(** X3. The precondition [n ≥ 1] is needed: with [n ≤ 0] no run goes
    through in bounds.  For a negative [n] the constructor of [adj] on
    line 12 throws; for [n = 0] the vectors are empty and, at the latest,
    the write [dist[0] = 0] on line 26 is out of bounds, which is undefined
    behaviour. *)
Theorem nonpositive_n_fails n m :
  n ≤ 0 → shortestAlternatingPaths n m = None.
Proof.
  intros Hn. unfold shortestAlternatingPaths.
  rewrite call_frame, returned_eq.
  destruct (build n _ _) as [adj|]; [|done]. simpl.
  unfold search. by rewrite init_nonpositive.
Qed.

Lemma nonpositive_n_fails_witness :
  shortestAlternatingPaths 0 (Caller [] []) = None.
Proof. apply (nonpositive_n_fails 0 (Caller [] [])). lia. Defined.

(** ** The loop on any state *)

Section any_state.
Variable relax : Z → Z → Z.
Variable adj : adjacency.

(** All a visit can do, read off lines 44-57. *)
Lemma visit_inv d p st v c st' :
  visit relax d p st (v, c) = Some st' →
  st' = st ∨
  ∃ row old dist' vis',
    c ≠ p ∧
    vget (visited st) v = Some row ∧ vget row c = Some false ∧
    mark (visited st) v c = Some vis' ∧
    vget (dist st) v = Some old ∧
    vset (dist st) v (relax old (int_add d 1)) = Some dist' ∧
    st' = State dist' vis' (q st ++ [(v, int_add d 1, c)]).
Proof.
  unfold visit. case_decide; [|intros [= <-]; by left].
  destruct (vget (visited st) v) as [row|] eqn:Hrow; [|done]. simpl.
  destruct (vget row c) as [[]|] eqn:Hc; [intros [= <-]; by left| |done].
  simpl.
  destruct (mark (visited st) v c) as [vis'|] eqn:Hm; [|done]. simpl.
  destruct (vget (dist st) v) as [old|] eqn:Hold; [|done]. simpl.
  destruct (vset (dist st) v _) as [dist'|] eqn:Hset; [|done]. simpl.
  intros [= <-]. right. exists row, old, dist', vis'. done.
Qed.

(** A property of the distances and flags kept by every visit is kept by
    the whole loop. *)
Lemma run_preserves (P : list Z → list (list bool) → Prop) :
  (∀ d p st e st',
     P (dist st) (visited st) → visit relax d p st e = Some st' →
     P (dist st') (visited st')) →
  ∀ st popped pushed st',
    run relax adj st popped pushed st' →
    P (dist st) (visited st) → P (dist st') (visited st').
Proof.
  intros Hvisit.
  assert (∀ edges d p st st',
            P (dist st) (visited st) →
            explore relax edges d p st = Some st' →
            P (dist st') (visited st')) as Hexplore.
  { induction edges as [|e edges IH]; intros d p st st' HP; simpl.
    - by intros [= <-].
    - destruct (visit relax d p st e) as [st1|] eqn:Hv; [|done]. simpl.
      apply IH. by eapply Hvisit. }
  induction 1 as [|st front rest st1 new popped pushed st' Hq Hit _ _ IH];
    [done|].
  intros HP. apply IH. unfold bfs_iter in Hit. destruct front as [[u d] p].
  destruct (vget adj u) as [edges|]; [|done]. simpl in Hit.
  by eapply Hexplore in Hit.
Qed.

(** Whenever the loop returns it has run to an empty queue. *)
Lemma bfs_run st st' :
  bfs relax adj st = Some st' →
  ∃ popped pushed, run relax adj st popped pushed st'.
Proof.
  remember (variant st) as m eqn:Hm. revert st Hm.
  induction m as [m IH] using lt_wf_ind. intros st -> Hbfs.
  rewrite bfs_step_eq in Hbfs.
  destruct (q st) as [|front rest] eqn:Hq.
  - injection Hbfs as <-. exists [], []. by constructor.
  - destruct (bfs_iter relax adj front rest st) as [st1|] eqn:Hit; [|done].
    destruct (bfs_iter_queue _ _ _ _ _ _ Hit) as [new Hnew].
    destruct (IH (variant st1)) with (st := st1) as (popped & pushed & Hrun);
      [by eapply bfs_iter_variant|done|done|].
    exists (front :: popped), (new ++ pushed). by econstructor.
Qed.
End any_state.

(** X6. During the search no distance ever grows: when the loop returns,
    [dist] has the length it started with and every entry is at most what
    it was ([std::min] on line 53). *)
Theorem distances_never_increase adj st st' :
  bfs relax_min adj st = Some st' →
  length (dist st') = length (dist st) ∧
  ∀ i x, vget (dist st) i = Some x →
         ∃ x', vget (dist st') i = Some x' ∧ x' ≤ x.
Proof.
  intros (popped & pushed & Hrun)%bfs_run.
  apply (run_preserves relax_min adj
           (λ d _, length d = length (dist st) ∧
                   ∀ i x, vget (dist st) i = Some x →
                          ∃ x', vget d i = Some x' ∧ x' ≤ x)
           ) with (st := st) (st' := st') (popped := popped) (pushed := pushed);
    [|done|split; [done|]; intros i x ?; exists x; split; [done|lia]].
  intros d p s [v c] s' [Hlen Hle] Hv.
  destruct (visit_inv _ _ _ _ _ _ _ Hv)
    as [->|(row & old & dist' & vis' & _ & _ & _ & _ & Hold & Hset & ->)];
    [done|]. simpl.
  split; [by erewrite vset_length|]. intros i x Hi.
  destruct (Hle i x Hi) as (x1 & Hx1 & Hle1).
  pose proof (vget_range _ _ _ Hx1).
  rewrite (vget_vset _ _ _ _ _ Hset) by lia. case_decide; [|eauto].
  subst i. eexists. split; [done|]. unfold relax_min.
  assert (x1 = old) as -> by congruence. lia.
Qed.

Lemma distances_never_increase_witness :
  ∃ st',
    bfs relax_min [[(1, 0)]; [(0, 1)]]
      (State [0; 7] [[true; true]; [false; false]] [(0, 0, 1)]) = Some st' ∧
    length (dist st') = 2%nat ∧
    ∀ i x, vget [0; 7] i = Some x → ∃ x', vget (dist st') i = Some x' ∧ x' ≤ x.
Proof.
  eexists. split; [vm_compute; reflexivity|].
  apply (distances_never_increase [[(1, 0)]; [(0, 1)]]
           (State [0; 7] [[true; true]; [false; false]] [(0, 0, 1)])).
  vm_compute. reflexivity.
Defined.

(** ** Whatever the edges are *)

Lemma source_kept_visit relax n d p st e st' :
  source_kept n (dist st) (visited st) →
  visit relax d p st e = Some st' →
  source_kept n (dist st') (visited st').
Proof.
  intros (Hlen & H0 & Hs0 & Hs1 & Hrow0) Hv. destruct e as [v c].
  destruct (visit_inv _ _ _ _ _ _ _ Hv)
    as [->|(row & old & dist' & vis' & _ & Hrow & Hc & Hm & _ & Hset & ->)];
    [done|]. simpl.
  assert (v ≠ 0) as Hv0.
  { intros ->. specialize (Hrow0 _ Hrow). apply vget_range in Hc as Hcr.
    apply (seen_false _ _ _ _ Hrow Hc).
    assert (c = 0 ∨ c = 1) as [-> | ->] by lia; done. }
  split; [by erewrite vset_length|]. split.
  { rewrite (vget_vset _ _ _ _ _ Hset), decide_False by done. done. }
  split; [apply (seen_mark _ _ _ _ 0 0 Hm); by left|].
  split; [apply (seen_mark _ _ _ _ 0 1 Hm); by left|].
  intros row0 Hrow0'. apply Hrow0.
  destruct (mark_inv _ _ _ _ Hm) as (r & r' & _ & _ & Hvis).
  rewrite (vget_vset _ _ _ _ _ Hvis), decide_False in Hrow0' by done. done.
Qed.

Lemma search_any relax n adj res :
  search relax n adj = Some res →
  ∃ st0 st,
    init n = Some st0 ∧ bfs relax adj st0 = Some st ∧
    source_kept n (dist st) (visited st) ∧ res = map clean (dist st).
Proof.
  unfold search. destruct (init n) as [st0|] eqn:Hinit; [|done]. simpl.
  destruct (bfs relax adj st0) as [st|] eqn:Hbfs; [|done]. simpl.
  intros Hfin. exists st0, st. do 2 (split; [done|]).
  assert (1 ≤ n) as Hn.
  { destruct (decide (1 ≤ n)); [done|].
    rewrite init_nonpositive in Hinit by lia. done. }
  destruct (init_spec n Hn)
    as (dist1 & vis2 & Hinit' & Hd & Hv & Hrows & Hseen & _ & Hdist).
  rewrite Hinit in Hinit'. injection Hinit' as ->.
  destruct (bfs_run _ _ _ _ Hbfs) as (popped & pushed & Hrun).
  assert (source_kept n (dist st) (visited st)) as Hkept.
  { apply (run_preserves relax adj (source_kept n)) in Hrun; [done| |].
    - intros. by eapply source_kept_visit.
    - simpl. split; [done|].
      destruct (vget_in_range dist1 0) as [x Hx]; [lia|].
      split; [by rewrite Hx, (Hdist _ _ Hx), decide_True|].
      split; [apply Hseen; auto|]. split; [apply Hseen; auto|].
      intros row Hrow. by eapply Hrows, vget_elem. }
  split; [done|]. destruct Hkept as (Hlen & _).
  rewrite finalize_all in Hfin by done. by injection Hfin.
Qed.

(** X4. Whenever a sequence is returned, whatever the edges are, it has
    exactly [n] entries. *)
Theorem returned_length n m res m' :
  shortestAlternatingPaths n m = Some (res, m') →
  length res = Z.to_nat n.
Proof.
  unfold shortestAlternatingPaths. rewrite call_frame, returned_eq.
  destruct (build n _ _) as [adj|]; [|done]. simpl.
  destruct (search relax_min n adj) as [res1|] eqn:Hsearch; [|done].
  intros [= <- _].
  apply search_any in Hsearch as (st0 & st & _ & _ & (Hlen & _) & ->).
  by rewrite length_map.
Qed.

Lemma returned_length_witness :
  ∃ res m',
    shortestAlternatingPaths 2 (Caller [[1; 5]] [[1; -3]]) = Some (res, m') ∧
    length res = Z.to_nat 2.
Proof.
  eexists _, _. split; [vm_compute; reflexivity|].
  eapply (returned_length 2 (Caller [[1; 5]] [[1; -3]])).
  vm_compute. reflexivity.
Defined.

(** X5. Whenever a sequence is returned, whatever the edges are, its entry
    for node 0 is 0: both flags of node 0 are set before the loop, so no
    cycle back to 0 ever rewrites [dist[0]]. *)
Theorem source_entry_is_zero n m res m' :
  shortestAlternatingPaths n m = Some (res, m') →
  vget res 0 = Some 0.
Proof.
  unfold shortestAlternatingPaths. rewrite call_frame, returned_eq.
  destruct (build n _ _) as [adj|]; [|done]. simpl.
  destruct (search relax_min n adj) as [res1|] eqn:Hsearch; [|done].
  intros [= <- _].
  apply search_any in Hsearch as (st0 & st & _ & _ & (_ & H0 & _) & ->).
  apply vget_Some in H0 as [_ H0]. apply vget_Some. split; [done|].
  by rewrite list_lookup_fmap, H0.
Qed.

Lemma source_entry_is_zero_witness :
  ∃ res m',
    shortestAlternatingPaths 3
      (Caller [[0; 1]; [2; 0]; [0; 0]] [[1; 2]; [1; 0]; [0; 0]])
      = Some (res, m') ∧
    vget res 0 = Some 0.
Proof.
  eexists _, _. split; [vm_compute; reflexivity|].
  eapply (source_entry_is_zero 3
            (Caller [[0; 1]; [2; 0]; [0; 0]] [[1; 2]; [1; 0]; [0; 0]])).
  vm_compute. reflexivity.
Defined.

(** ** The final pass (lines 62-67) *)

Lemma finalize_from count i dist :
  (i ≤ length dist)%nat →
  finalize count (Z.of_nat i) dist =
  if decide (i + count ≤ length dist)%nat
  then Some (take i dist ++ map clean (take count (drop i dist)) ++
             drop (i + count) dist)
  else None.
Proof.
  revert i dist. induction count as [|count IH]; intros i dist Hi; simpl.
  - rewrite decide_True by lia. rewrite Nat.add_0_r. simpl.
    by rewrite take_drop.
  - destruct (decide (i < length dist)%nat) as [Hlt|Hge].
    + destruct (lookup_lt_is_Some_2 dist i Hlt) as [x Hx].
      assert (vget dist (Z.of_nat i) = Some x) as ->.
      { apply vget_Some. split; [lia|]. by rewrite Nat2Z.id. }
      simpl.
      assert ((if decide (x = INT_MAX) then vset dist (Z.of_nat i) (-1)
               else Some dist) = Some (<[i := clean x]> dist)) as ->.
      { unfold clean. case_decide.
        - unfold vset. rewrite decide_True by lia. by rewrite Nat2Z.id.
        - by rewrite list_insert_id. }
      simpl. replace (Z.of_nat i + 1) with (Z.of_nat (S i)) by lia.
      rewrite IH by (rewrite length_insert; lia). rewrite length_insert.
      replace (S i + count)%nat with (i + S count)%nat by lia.
      case_decide; [|done]. f_equal.
      rewrite (take_S_r (<[i:=clean x]> dist) i (clean x))
        by (apply list_lookup_insert_eq; lia).
      rewrite take_insert_ge by lia. rewrite !drop_insert_lt by lia.
      rewrite (drop_S dist x i Hx). simpl. by rewrite <- app_assoc.
    + assert (vget dist (Z.of_nat i) = None) as ->.
      { unfold vget. rewrite decide_True by lia. rewrite Nat2Z.id.
        apply lookup_ge_None_2. lia. }
      simpl. by rewrite decide_False by lia.
Qed.

(** X7. The final pass over the first [count] entries replaces every
    [INT_MAX] among them by [-1] and leaves every other value, and the
    entries after them, as they are; it runs out of bounds when the vector
    has fewer than [count] entries. *)
Theorem final_pass count dist :
  finalize count 0 dist =
  if decide (count ≤ length dist)%nat
  then Some (map clean (take count dist) ++ drop count dist)
  else None.
Proof.
  change 0 with (Z.of_nat 0). rewrite finalize_from by lia. simpl.
  by rewrite drop_0.
Qed.

(** ** Consequences for the graph *)

Section edges.
Variable n : Z.
Variables red blue : list (list Z).
Hypothesis Hvalid : valid_input n red blue.
Hypothesis Hfit : fits_int n.


End edges.













(** ** The order of the search *)

Section order.
Variable n : Z.
Variables red blue : list (list Z).
Hypothesis Hvalid : valid_input n red blue.
Hypothesis Hfit : fits_int n.



End order.

(** A flag that is set at the end was set at the start or belongs to a
    pushed entry. *)
Section flags.
Variable relax : Z → Z → Z.
Variable adj : adjacency.


End flags.

Section order_result.
Variable n : Z.
Variables red blue : list (list Z).
Hypothesis Hvalid : valid_input n red blue.
Hypothesis Hfit : fits_int n.

End order_result.







Example longer_than_n_minus_1 :
  returned shortestAlternatingPaths 3 [[0; 1]; [1; 2]] [[1; 1]]
    = Some [0; 1; 3].
Proof. vm_compute. reflexivity. Qed.

(** ** Unchecked destinations (lines 13-14 and 48) *)

Lemma vget_out_of_range {A} (l : list A) i :
  ¬ (0 ≤ i < Z.of_nat (length l)) → vget l i = None.
Proof.
  intros Hi. destruct (vget l i) as [x|] eqn:Hx; [|done].
  apply vget_range in Hx. done.
Qed.

Lemma out_edges_elem color u v edge edges :
  edge ∈ edges → vget edge 0 = Some u → vget edge 1 = Some v →
  (v, color) ∈ out_edges color u edges.
Proof.
  intros Hin H0 H1. unfold out_edges. apply list_elem_of_omap.
  exists edge. split; [done|]. rewrite H0, H1. simpl.
  by rewrite decide_True.
Qed.

Section unchecked.
Variable relax : Z → Z → Z.

Lemma visit_visited_length d p st e st' :
  visit relax d p st e = Some st' →
  length (visited st') = length (visited st).
Proof.
  destruct e as [v c]. intros Hv.
  destruct (visit_inv _ _ _ _ _ _ _ Hv)
    as [->|(row & old & dist' & vis' & _ & _ & _ & Hm & _ & _ & ->)];
    [done|]. simpl. by eapply mark_length.
Qed.

Lemma explore_visited_length edges d p st st' :
  explore relax edges d p st = Some st' →
  length (visited st') = length (visited st).
Proof.
  revert st. induction edges as [|e edges IH]; intros st; simpl.
  - by intros [= ->].
  - destruct (visit relax d p st e) as [st1|] eqn:Hv; [|done]. simpl.
    intros ->%IH. by eapply visit_visited_length.
Qed.

(** An edge of the other colour whose destination is no row of [visited]
    stops the exploration. *)
Lemma explore_out_of_bounds edges d p st v c :
  (v, c) ∈ edges → c ≠ p →
  ¬ (0 ≤ v < Z.of_nat (length (visited st))) →
  explore relax edges d p st = None.
Proof.
  revert st. induction edges as [|e edges IH]; intros st Hin Hcp Hv.
  - by apply elem_of_nil in Hin.
  - simpl. apply elem_of_cons in Hin as [<-|Hin].
    + unfold visit. rewrite decide_True by done.
      by rewrite (vget_out_of_range _ _ Hv).
    + destruct (visit relax d p st e) as [st1|] eqn:H1; [|done]. simpl.
      apply IH; [done..|]. by erewrite visit_visited_length.
Qed.
End unchecked.

(** X17. With [n ≥ 1], an edge that leaves node 0 for a destination [v]
    outside [0, n-1] is always followed: whatever the other edges are, the
    run makes an out-of-bounds access, at the latest the read of
    [visited[v]] on line 48.  That is undefined behaviour; nothing is said
    about what the code then does or returns. *)
Theorem out_of_range_destination_from_source n m edge v :
  1 ≤ n →
  edge ∈ redEdges m ++ blueEdges m →
  vget edge 0 = Some 0 → vget edge 1 = Some v → ¬ (0 ≤ v < n) →
  shortestAlternatingPaths n m = None.
Proof.
  intros Hn Hin H0 H1 Hv. unfold shortestAlternatingPaths.
  rewrite call_frame, returned_eq.
  destruct (build n _ _) as [adj|] eqn:Hbuild; [|done]. simpl.
  destruct (build_rows n _ _ adj 0 Hbuild) as [Hlen Hrow0]; [lia|].
  assert (∃ c, (c = 0 ∨ c = 1) ∧
               (v, c) ∈ out_edges 0 0 (redEdges m) ++
                        out_edges 1 0 (blueEdges m)) as (c & Hc & Hvc).
  { apply elem_of_app in Hin as [Hin|Hin]; [exists 0|exists 1];
      (split; [auto|]); apply elem_of_app; [left|right];
      by eapply out_edges_elem. }
  destruct (init_spec n Hn) as (dist1 & vis2 & Hinit & _ & Hvis & _).
  unfold search. rewrite Hinit. simpl.
  assert (bfs relax_min adj (State dist1 vis2 [(0, 0, 0); (0, 0, 1)]) = None)
    as ->; [|done].
  rewrite bfs_step_eq. simpl. rewrite Hrow0. simpl.
  destruct (explore relax_min _ 0 0 _) as [st1|] eqn:Hex; [|done].
  destruct Hc as [-> | ->].
  - destruct (explore_queue _ _ _ _ _ _ Hex) as [new Hnew]. simpl in Hnew.
    apply explore_visited_length in Hex as Hlen1. simpl in Hlen1.
    rewrite bfs_step_eq, Hnew. simpl. rewrite Hrow0. simpl.
    rewrite (explore_out_of_bounds relax_min _ 0 1 _ v 0); [done..|].
    simpl. rewrite Hlen1, Hvis. lia.
  - rewrite (explore_out_of_bounds relax_min _ 0 0 _ v 1) in Hex;
      [done..|]. simpl. rewrite Hvis. lia.
Qed.

Lemma out_of_range_destination_from_source_witness :
  shortestAlternatingPaths 2 (Caller [[0; 1]] [[1; 0]; [0; 5]]) = None.
Proof.
  apply (out_of_range_destination_from_source 2
           (Caller [[0; 1]] [[1; 0]; [0; 5]]) [0; 5] 5);
    [lia| |done|done|lia].
  simpl. right. right. by left.
Defined.

(** ** Only [edge[0]] and [edge[1]] are read *)

Lemma add_edge_take color (adj : adjacency) edge :
  add_edge color adj (take 2 edge) = add_edge color adj edge.
Proof.
  unfold add_edge, vget. simpl.
  rewrite !lookup_take_lt by (simpl; lia). done.
Qed.

Lemma add_edges_take color edges (adj : adjacency) :
  add_edges color (take 2 <$> edges) adj = add_edges color edges adj.
Proof.
  revert adj. induction edges as [|edge edges IH]; intros adj; simpl;
    [done|].
  rewrite add_edge_take. destruct (add_edge color adj edge); simpl; [|done].
  apply IH.
Qed.

(** X18. Entries of an edge vector after the first two are ignored:
    cutting every edge down to [edge[0], edge[1]] changes nothing, on any
    input. *)
Theorem extra_edge_entries_are_ignored n red blue :
  returned shortestAlternatingPaths n (take 2 <$> red) (take 2 <$> blue) =
  returned shortestAlternatingPaths n red blue.
Proof.
  unfold shortestAlternatingPaths. rewrite !returned_eq. unfold build.
  destruct (vnew n []) as [adj0|]; simpl; [|done].
  rewrite add_edges_take.
  destruct (add_edges 0 red _) as [adj1|]; simpl; [|done].
  by rewrite add_edges_take.
Qed.
